(** * Percolator: protein-level probability estimation

    A shallow embedding of [IntraSetRelation.cpp] and
    [ProteinProbEstimator.cpp], and the properties of the association index,
    the aggregation of inference results and the grid search over the
    hyperparameters alpha and beta.

    Conventions of the embedding.
    - A C++ [int] is a [Z] kept in the 32-bit two's complement range; every
      increment goes through [int_incr], which writes the wrap-around out.
    - A C++ [double] is an exact rational of [Q] where the control flow,
      the order and the comparisons of the code are at stake: there rounding
      is left out and equality of doubles is [Qeq]. Where rounding decides
      the values, the module [Binary64] gives the same code over the
      binary64 numbers: the sums and quotients of [buildOutput], and the two
      loops of the grid search, which over the rationals reach their upper
      bounds and over binary64 stop one step short of them.
    - [std::map] is a [gmap], [std::set] a [gset], [vector] and fido's
      [Array] are lists.
    - [assert] aborts the program: a function that may abort returns an
      [outcome].
    - Writing to [cerr] and to the files under /tmp/fido changes no value
      the functions compute and is left out. *)

From Stdlib Require Import ZArith QArith Qround Lia Lqa List Sorted Permutation.
From stdpp Require Import gmap strings list fin_maps sorting.
From Stdlib Require PrimFloat Uint63.

Local Open Scope Z_scope.

(** ** Machine integers *)

Definition INT_MAX : Z := 2 ^ 31 - 1.

(** The value an [int] takes when the mathematical result is [z]. *)
Definition wrap_int (z : Z) : Z := (z + 2 ^ 31) mod 2 ^ 32 - 2 ^ 31.

(** [n++] on an [int]. *)
Definition int_incr (n : Z) : Z := wrap_int (n + 1).

(** ** Iteration over ordered containers *)

(** The order of [std::string]: lexicographic on the character codes. *)
Definition string_le (x y : string) : Prop := String.leb x y = true.

#[export] Instance string_le_dec (x y : string) : Decision (string_le x y) :=
  decide (String.leb x y = true).

Definition entry_le {V : Type} (x y : string * V) : Prop :=
  string_le (fst x) (fst y).

#[export] Instance entry_le_dec {V : Type} (x y : string * V)
  : Decision (entry_le x y) := decide (String.leb (fst x) (fst y) = true).

(** The elements of a [std::set<string>] from [begin()] to [end()]. *)
Definition in_order (s : gset string) : list string :=
  merge_sort string_le (elements s).

(** The entries of a [std::map<string,V>] from [begin()] to [end()]. *)
Definition entries_in_order {V : Type} (m : gmap string V) : list (string * V) :=
  merge_sort entry_le (map_to_list m).

(** ** IntraSetRelation.cpp *)

Module IntraSetRelation.

(** Modelled from the spec: the class declaration (IntraSetRelation.h) is
    not among the sources. The three fields are the ones the member
    functions use: two occurrence counters and, per protein, the set of
    peptide ids it was registered with. *)
Record t := mk {
  numProteins : gmap string Z;
  numPeptides : gmap string Z;
  prot2pep : gmap string (gset string)
}.

Definition empty : t := mk ∅ ∅ ∅.

(** [if (m.count(k)==0) m[k]=1; else m[k]++;] *)
Definition count_up (k : string) (m : gmap string Z) : gmap string Z :=
  match m !! k with
  | None => <[k := 1]> m
  | Some n => <[k := int_incr n]> m
  end.

(** The count an entry holds after [count_up]. *)
Definition counted (o : option Z) : Z :=
  match o with None => 1 | Some n => int_incr n end.

(** [m[k]] on a [std::map]: the entry is created empty when it is absent. *)
Definition subscript (k : string) (m : gmap string (gset string))
  : gset string * gmap string (gset string) :=
  match m !! k with
  | Some s => (s, m)
  | None => (∅, <[k := ∅]> m)
  end.

(** One turn of the loop of [registerRel]. *)
Definition registerRel_step (pep : string) (r : t) (iProt : string) : t :=
  let '(s, p2p) := subscript iProt (prot2pep r) in
  mk (count_up iProt (numProteins r))
     (numPeptides r)
     (<[iProt := {[pep]} ∪ s]> p2p).

Definition registerRel (pep : string) (prot : gset string) (r : t) : t :=
  let r0 := mk (numProteins r) (count_up pep (numPeptides r)) (prot2pep r) in
  foldl (registerRel_step pep) r0 (in_order prot).

(** One turn of the loop of [getPepSites]; the state is [maxn] and the
    object, whose [prot2pep] the subscript may extend. *)
Definition getPepSites_step (st : Z * t) (iProt : string) : Z * t :=
  let '(maxn, r) := st in
  let '(s, p2p) := subscript iProt (prot2pep r) in
  let n := wrap_int (Z.of_nat (size s)) in
  (if n >? maxn then n else maxn,
   mk (numProteins r) (numPeptides r) p2p).

Definition getPepSites (prot : gset string) (r : t) : Z * t :=
  foldl getPepSites_step (0, r) (in_order prot).

(** A value is met at two different positions when the set is traversed. *)
Definition appears_twice (pep : string) (s : gset string) : Prop :=
  ∃ i j : nat, i ≠ j ∧ in_order s !! i = Some pep ∧ in_order s !! j = Some pep.

End IntraSetRelation.

(** ** Aborting computations *)

Inductive abort : Type :=
  | AssertionFailed   (* an [assert] did not hold *)
  | OutOfBounds       (* an [Array] was read outside its bounds *)
  | Uninitialised.    (* a field no constructor has set was read *)

Inductive outcome (A : Type) : Type :=
  | Done (a : A)
  | Abort (why : abort).
Arguments Done {A} a.
Arguments Abort {A} why.

#[export] Instance outcome_ret : MRet outcome := fun A a => Done a.
#[export] Instance outcome_bind : MBind outcome := fun A B f m =>
  match m with
  | Done a => f a
  | Abort why => Abort why
  end.

Definition assert_ (b : bool) : outcome unit :=
  if b then Done tt else Abort AssertionFailed.

(** [a[i]] on an [Array], read only. *)
Definition at_ {A : Type} (a : list A) (i : nat) : outcome A :=
  match a !! i with
  | Some x => Done x
  | None => Abort OutOfBounds
  end.

(** Running a loop body over the successive values of the loop variable. *)
Fixpoint iterate {A S : Type} (body : A -> S -> outcome S) (xs : list A) (s : S)
  : outcome S :=
  match xs with
  | [] => Done s
  | x :: xs' => s' ← body x s; iterate body xs' s'
  end.

(** ** Doubles *)

Local Open Scope Q_scope.

(** [x != y] on doubles. *)
Definition Qneq_bool (x y : Q) : bool := negb (Qeq_bool x y).

(** [x > y] on doubles. *)
Definition Qgt_bool (x y : Q) : bool := negb (Qle_bool x y).

(** [numeric_limits<double>::min()]: the least positive normal double. *)
Definition DBL_MIN : Q := 1 # (2 ^ 1022).

(** [numeric_limits<double>::max()], whose opposite is the least finite
    double. *)
Definition DBL_MAX : Q := inject_Z ((2 ^ 53 - 1) * 2 ^ 971).

(** The values [x], [x+step], ... that a loop
    [for (double x = lower; x <= upper; x += step)] gives its variable when
    the sums are exact; the enumeration stops at the first value above
    [upper]. [Binary64.for_values] is the loop with the sums rounded. *)
Fixpoint for_values (fuel : nat) (step x upper : Q) : list Q :=
  match fuel with
  | O => []
  | S n => if Qle_bool x upper then x :: for_values n step (x + step) upper
           else []
  end.

(** Turns after which the guard of such a loop has failed. *)
Definition for_fuel (step lower upper : Q) : nat :=
  Z.to_nat (Qfloor ((upper - lower) / step) + 2).

(** ** ProteinProbEstimator.cpp: the data *)

(** The declarations of these types are in headers that are not among the
    sources; each record keeps the fields that the two source files read or
    write. *)
Record PSMDescription := {
  peptide : string;
  proteinIds : gset string
}.

Record ScoreHolder := {
  label : Z;
  pPSM : PSMDescription
}.

Record Scores := { scores : list ScoreHolder }.

(** What the inference engine leaves in its public fields once
    [getProteinProbs] has run. *)
Record GroupPowerBigraph := {
  probabilityR : list Q;
  groupProtNames : list (list string)
}.

Record fidoOutput := mk_fidoOutput {
  peps : list Q;
  protein_ids : list (list string);
  qvalues : list Q
}.

Record ProteinProbEstimator := mk_estimator {
  peptideScores : option Scores;
  proteinGraph : option GroupPowerBigraph;
  gamma : Q;
  alpha : Q;
  beta : Q;
  proteinsToPeptides : gmap string (list ScoreHolder)
}.

Definition set_alpha_beta (a b : Q) (e : ProteinProbEstimator) : ProteinProbEstimator :=
  mk_estimator (peptideScores e) (proteinGraph e) (gamma e) a b
               (proteinsToPeptides e).

Definition set_proteinGraph (g : GroupPowerBigraph) (e : ProteinProbEstimator)
  : ProteinProbEstimator :=
  mk_estimator (peptideScores e) (Some g) (gamma e) (alpha e) (beta e)
               (proteinsToPeptides e).

Module gridPoint.

(** The coordinates are [None] as long as no constructor has set them. *)
Record t := mk {
  truePositives : list string;
  falsePositives : list string;
  objectiveFnValue : Q;
  alpha : option Q;
  beta : option Q
}.

(** [gridPoint()] *)
Definition default : t := mk [] [] (-1) None None.

(** [gridPoint(alpha_par, beta_par)] *)
Definition make (alpha_par beta_par : Q) : t :=
  mk [] [] (-1) (Some alpha_par) (Some beta_par).

Definition set_objectiveFnValue (v : Q) (p : t) : t :=
  mk (truePositives p) (falsePositives p) v (alpha p) (beta p).

(** [operator >] *)
Definition gt (lhs rhs : t) : outcome bool :=
  _ ← assert_ (Qneq_bool (objectiveFnValue lhs) (-1));
  _ ← assert_ (Qneq_bool (objectiveFnValue rhs) (-1));
  if Qgt_bool (objectiveFnValue lhs) (objectiveFnValue rhs)
  then Done true else Done false.

End gridPoint.

(** ** ProteinProbEstimator.cpp: the functions *)

Definition populate_step (peptIt : ScoreHolder)
    (tbl : gmap string (list ScoreHolder)) (protIt : string)
  : gmap string (list ScoreHolder) :=
  match tbl !! protIt with
  | None => <[protIt := [peptIt]]> tbl
  | Some peptides => <[protIt := peptides ++ [peptIt]]> tbl
  end.

Definition populateProteinsToPeptidesTable (fullset : Scores)
    (thisEstimator : ProteinProbEstimator) : ProteinProbEstimator :=
  mk_estimator (peptideScores thisEstimator) (proteinGraph thisEstimator)
    (gamma thisEstimator) (alpha thisEstimator) (beta thisEstimator)
    (foldl (fun tbl peptIt =>
              foldl (populate_step peptIt) tbl
                    (in_order (proteinIds (pPSM peptIt))))
           (proteinsToPeptides thisEstimator) (scores fullset)).

(** [ProteinProbEstimator(alpha_par, beta_par)] *)
Definition new_ProteinProbEstimator (alpha_par beta_par : Q) : ProteinProbEstimator :=
  mk_estimator None None 0.5 alpha_par beta_par ∅.

Definition setDefaultParameters (e : ProteinProbEstimator) : ProteinProbEstimator :=
  set_alpha_beta 0.1 0.01 e.

Definition initialize (fullset : Scores) (e : ProteinProbEstimator)
  : bool * ProteinProbEstimator :=
  let e1 := mk_estimator (Some fullset) (proteinGraph e) (gamma e) (alpha e)
                         (beta e) (proteinsToPeptides e) in
  let e2 := populateProteinsToPeptidesTable fullset e1 in
  (Qeq_bool (alpha e2) (-1) || Qeq_bool (beta e2) (-1), e2).

(** Modelled from the spec: the insertion step of [Array::sort], which is
    not among the sources. A pair of a value and its index goes before the
    first pair whose value is not less. *)
Fixpoint sort_insert (x : Q * nat) (l : list (Q * nat)) : list (Q * nat) :=
  match l with
  | [] => [x]
  | y :: l' => if Qle_bool (fst x) (fst y) then x :: l
               else y :: sort_insert x l'
  end.

(** Modelled from the spec: [Array::sort] belongs to the inference library
    and is not among the sources. It sorts the array in place, ascending,
    and returns the permutation it applied; ties keep their original order.
    The result is the sorted array and the array of indices. *)
Definition Array_sort (a : list Q) : list Q * list nat :=
  let ps := foldr sort_insert [] (zip a (seq 0 (length a))) in
  (map fst ps, map snd ps).

(** The variables that the loop of [buildOutput] assigns. *)
Record buildOutput_state := mk_bo {
  bo_protein_ids : list (list string);
  bo_qvalues : list Q;
  bo_sumPepSoFar : Q
}.

Definition buildOutput_step (sorted : list Q) (indices : list nat)
    (names : list (list string)) (k : nat) (st : buildOutput_state)
  : outcome buildOutput_state :=
  i ← at_ indices k;
  ids ← at_ names i;
  p ← at_ sorted k;
  let sum := bo_sumPepSoFar st + p in
  Done (mk_bo (<[k := ids]> (bo_protein_ids st))
              (<[k := sum / inject_Z (wrap_int (Z.of_nat k + 1))]> (bo_qvalues st))
              sum).

Definition buildOutput (proteinGraph : GroupPowerBigraph) : outcome fidoOutput :=
  let sorted := probabilityR proteinGraph in
  _ ← assert_ (negb (length sorted =? 0)%nat);
  let n := length sorted in
  let '(sorted, indices) := Array_sort sorted in
  st ← iterate (buildOutput_step sorted indices (groupProtNames proteinGraph))
               (seq 0 n) (mk_bo (replicate n []) (replicate n 0) 0);
  Done (mk_fidoOutput sorted (bo_protein_ids st) (bo_qvalues st)).

(** The q-values as the loop of [buildOutput] computes them: the sum so far
    over the number of values summed, from the turn [k] and the sum [sum]. *)
Fixpoint running_mean (k : nat) (sum : Q) (p : list Q) : list Q :=
  match p with
  | [] => []
  | x :: p' =>
      let sum' := sum + x in
      sum' / inject_Z (wrap_int (Z.of_nat k + 1)) :: running_mean (S k) sum' p'
  end.

(** The recurrence of the specification, in its words: the arrays are of
    one length, [q[0] = p[0]], and [q[k] = (k * q[k-1] + p[k]) / (k+1)] for
    [k >= 1]. *)
Definition cumulative_mean_recurrence (p q : list Q) : Prop :=
  length q = length p ∧
  (∀ p0 q0 : Q, p !! 0%nat = Some p0 -> q !! 0%nat = Some q0 -> q0 == p0) ∧
  (∀ (k : nat) (pk qk qprev : Q),
     (1 <= k)%nat ->
     p !! k = Some pk -> q !! k = Some qk -> q !! (k - 1)%nat = Some qprev ->
     qk == (inject_Z (Z.of_nat k) * qprev + pk) / inject_Z (Z.of_nat k + 1)).

(** The order of two pairs of a value and its index. *)
Definition fst_le (x y : Q * nat) : Prop := fst x <= fst y.

(** The two flags that the inner loop of [populateTPandFNLists] sets. *)
Definition scan_labels (peptides : list ScoreHolder) : bool * bool :=
  foldl (fun '(tp, fp) peptIt =>
           if negb (label peptIt =? 1)%Z then (tp, true) else (true, fp))
        (false, false) peptides.

Definition populateTPandFNLists_step (point : gridPoint.t)
    (protIt : string * list ScoreHolder) : gridPoint.t :=
  let '(tp, fp) := scan_labels (snd protIt) in
  let tps := if tp then gridPoint.truePositives point ++ [fst protIt]
             else gridPoint.truePositives point in
  let fps := if fp then gridPoint.falsePositives point ++ [fst protIt]
             else gridPoint.falsePositives point in
  gridPoint.mk tps fps (gridPoint.objectiveFnValue point)
               (gridPoint.alpha point) (gridPoint.beta point).

Definition populateTPandFNLists (point : gridPoint.t) (output : fidoOutput)
    (toBeTested : ProteinProbEstimator) : outcome gridPoint.t :=
  _ ← assert_ (length (gridPoint.truePositives point) =? 0)%nat;
  _ ← assert_ (length (gridPoint.falsePositives point) =? 0)%nat;
  Done (foldl populateTPandFNLists_step point
              (entries_in_order (proteinsToPeptides toBeTested))).

(** The collaborators of the estimator whose code is not among the sources:
    the inference engine and the four curve statistics of
    ProteinProbEstimatorHelper.h. [fido alpha beta gamma scores] is the
    graph after [new GroupPowerBigraph(RealRange(alpha,1,alpha),
    RealRange(beta,1,beta), gamma)], [read] and [getProteinProbs]. *)
Record Collaborators := {
  fido : Q -> Q -> Q -> option Scores -> GroupPowerBigraph;
  calculateFDRs : fidoOutput -> list string -> list string -> list Q * list Q;
  calculateMSE_FDR : Q -> list Q -> list Q -> Q;
  calculateRoc : fidoOutput -> list string -> list string -> list Z * list Z;
  calculateROC50 : Z -> list Z -> list Z -> Q
}.

Section Estimator.

Variable ext : Collaborators.

(** [calculateProteinProb] from its two assertions on: all of the function
    when [gridSearch] is false. *)
Definition calculateProteinProb_tail (this : ProteinProbEstimator)
  : outcome (fidoOutput * ProteinProbEstimator) :=
  _ ← assert_ (Qneq_bool (alpha this) (-1));
  _ ← assert_ (Qneq_bool (beta this) (-1));
  let g := fido ext (alpha this) (beta this) (gamma this) (peptideScores this) in
  let this := set_proteinGraph g this in
  output ← buildOutput g;
  Done (output, this).

Definition calculateObjectiveFn (lambda : Q) (point : gridPoint.t)
    (toBeTested : ProteinProbEstimator)
  : outcome (gridPoint.t * ProteinProbEstimator) :=
  match gridPoint.alpha point, gridPoint.beta point with
  | Some a, Some b =>
      _ ← assert_ (Qneq_bool a (-1));
      _ ← assert_ (Qneq_bool b (-1));
      let toBeTested := set_alpha_beta a b toBeTested in
      '(output, toBeTested) ← calculateProteinProb_tail toBeTested;
      point ← populateTPandFNLists point output toBeTested;
      let '(estimatedFdrs, empiricalFdrs) :=
        calculateFDRs ext output (gridPoint.truePositives point)
                      (gridPoint.falsePositives point) in
      let threshold := 0.1 in
      let mse_fdr := calculateMSE_FDR ext threshold estimatedFdrs empiricalFdrs in
      let '(fps, tps) :=
        calculateRoc ext output (gridPoint.truePositives point)
                     (gridPoint.falsePositives point) in
      let N := 50%Z in
      let roc50 := calculateROC50 ext N fps tps in
      Done (gridPoint.set_objectiveFnValue
              ((1 - lambda) * mse_fdr - lambda * roc50) point,
            toBeTested)
  | _, _ => Abort Uninitialised
  end.

(** The bounds of the two loops: [(lower_a, upper_a, lower_b, upper_b)]
    after the two tests on the parameters set beforehand. *)
Definition gridBounds (this : ProteinProbEstimator) : Q * Q * Q * Q :=
  let lower_a := 0.01 in let upper_a := 0.76 in
  let lower_b := 0.0 in let upper_b := 0.80 in
  let '(lower_a, upper_a) :=
    if Qneq_bool (alpha this) (-1) then (alpha this, alpha this)
    else (lower_a, upper_a) in
  let '(lower_a, upper_a) :=
    if Qneq_bool (beta this) (-1) then (beta this, beta this)
    else (lower_a, upper_a) in
  (lower_a, upper_a, lower_b, upper_b).

(** The body of the inner loop; the state is the estimator and
    [bestSoFar]. The comparison guards the message only, the assignment
    follows it in every turn. *)
Definition gridSearch_cell (lambda a b : Q)
    (st : ProteinProbEstimator * gridPoint.t)
  : outcome (ProteinProbEstimator * gridPoint.t) :=
  let '(this, bestSoFar) := st in
  let current := gridPoint.make a b in
  '(current, this) ← calculateObjectiveFn lambda current this;
  _ ← gridPoint.gt current bestSoFar;
  let bestSoFar := current in
  Done (this, bestSoFar).

Definition grid_a (this : ProteinProbEstimator) : list Q :=
  let '(lower_a, upper_a, _, _) := gridBounds this in
  for_values (for_fuel 0.05 lower_a upper_a) 0.05 lower_a upper_a.

Definition grid_b (this : ProteinProbEstimator) : list Q :=
  let '(_, _, lower_b, upper_b) := gridBounds this in
  for_values (for_fuel 0.05 lower_b upper_b) 0.05 lower_b upper_b.

Definition bestSoFar_seed : gridPoint.t :=
  gridPoint.set_objectiveFnValue DBL_MIN gridPoint.default.

(** [gridSearchAlphaBeta] with its local [bestSoFar] as it is when the
    function returns. *)
Definition gridSearch_loops (this : ProteinProbEstimator)
  : outcome (ProteinProbEstimator * gridPoint.t) :=
  let lambda := 0.15 in
  let bs := grid_b this in
  iterate (fun a => iterate (fun b => gridSearch_cell lambda a b) bs)
          (grid_a this) (this, bestSoFar_seed).

Definition gridSearchAlphaBeta (this : ProteinProbEstimator)
  : outcome ProteinProbEstimator :=
  '(this, _) ← gridSearch_loops this;
  Done this.

Definition calculateProteinProb (gridSearch : bool) (this : ProteinProbEstimator)
  : outcome (fidoOutput * ProteinProbEstimator) :=
  this ← (if gridSearch then gridSearchAlphaBeta this else Done this);
  calculateProteinProb_tail this.

(** The cells in the order in which the two loops reach them, with exact
    sums; the first cells of a row are the same over binary64. *)
Definition gridCells (this : ProteinProbEstimator) : list (Q * Q) :=
  a ← grid_a this; b ← grid_b this; [(a, b)].

(** The search stopped after its first [n] cells. *)
Definition gridSearch_upto (n : nat) (this : ProteinProbEstimator)
  : outcome (ProteinProbEstimator * gridPoint.t) :=
  iterate (fun c => gridSearch_cell 0.15 (fst c) (snd c))
          (take n (gridCells this)) (this, bestSoFar_seed).

(** The objective that [calculateObjectiveFn] finds for the cell
    [(a, b)]. *)
Definition objective_at (this : ProteinProbEstimator) (a b : Q) : outcome Q :=
  '(point, _) ← calculateObjectiveFn 0.15 (gridPoint.make a b) this;
  Done (gridPoint.objectiveFnValue point).

End Estimator.

(** ** A test double of the collaborators

    The engine reports one protein group, ["P"], whose posterior error is
    [f alpha beta]; the calibration error is the first estimated FDR, which
    is the first q-value; ROC50 is 0. The objective of the cell
    [(alpha, beta)] is then [(1 - 0.15) * f alpha beta]. *)
Definition stub (f : Q -> Q -> Q) : Collaborators := {|
  fido := fun a b _ _ =>
    {| probabilityR := [f a b]; groupProtNames := [["P"%string]] |};
  calculateFDRs := fun output _ _ => (qvalues output, []);
  calculateMSE_FDR := fun _ estimatedFdrs _ => hd 0 estimatedFdrs;
  calculateRoc := fun _ _ _ => ([], []);
  calculateROC50 := fun _ _ _ => 0
|}.

(** The objective is the same in every cell. *)
Definition constant (v : Q) (a b : Q) : Q := v.

(** The objective falls from cell to cell along a row. *)
Definition falling (a b : Q) : Q := 2 - a - b.

(** The objective has its least value at (0.26, 0.5), inside the ranges of
    the search, and grows with the distance from there. *)
Definition bowl (a b : Q) : Q := (a - 0.26) * (a - 0.26) + (b - 0.5) * (b - 0.5).

(** A data set of two peptides of the protein "P": a target and a decoy. *)
Definition target_and_decoy : Scores := {|
  scores := [
    {| label := 1;
       pPSM := {| peptide := "K.ELVISK.L"; proteinIds := {["P"%string]} |} |};
    {| label := -1;
       pPSM := {| peptide := "K.SIVLEK.L"; proteinIds := {["P"%string]} |} |}
  ]
|}.

(** The estimator after [initialize] on that data set, built with the given
    parameters; -1 stands for a parameter that was not set. *)
Definition session (alpha_par beta_par : Q) : ProteinProbEstimator :=
  snd (initialize target_and_decoy (new_ProteinProbEstimator alpha_par beta_par)).

(** ** Further definitions for the properties of the code *)

(** The two counters and the peptide sets agree: a protein has a count
    exactly when it has a peptide set that is not empty, and every peptide
    of a set has a count. *)
Definition index_consistent (r : IntraSetRelation.t) : Prop :=
  (∀ p : string,
     is_Some (IntraSetRelation.numProteins r !! p) ↔
     ∃ s : gset string, IntraSetRelation.prot2pep r !! p = Some s ∧ s ≠ ∅) ∧
  (∀ (p : string) (s : gset string) (pep : string),
     IntraSetRelation.prot2pep r !! p = Some s -> pep ∈ s ->
     is_Some (IntraSetRelation.numPeptides r !! pep)).

(** The number of peptides registered to a protein, as [getPepSites] reads
    it. *)
Definition pep_sites (r : IntraSetRelation.t) (p : string) : Z :=
  Z.of_nat (size (default ∅ (IntraSetRelation.prot2pep r !! p))).

(** The peptides of the input that name a protein, in the order of the
    input. *)
Definition peptides_of (prot : string) (fullset : list ScoreHolder)
  : list ScoreHolder :=
  filter (fun s => prot ∈ proteinIds (pPSM s)) fullset.

(** The double quote character. *)
Definition dquote : string := String (Ascii.ascii_of_nat 34) EmptyString.

Section WriteXML.

(** [PSMDescription::getPeptideNoResidues], whose code is not among the
    sources. *)
Variable getPeptideNoResidues : PSMDescription -> string.

(** The line that [writeXML_writeAssociatedPeptides] writes for a peptide. *)
Definition peptide_seq_line (peptIt : ScoreHolder) : string :=
  ("      <peptide_seq seq=" +:+ dquote
   +:+ getPeptideNoResidues (pPSM peptIt) +:+ dquote +:+ "/>")%string.

(** One turn of the loop of [writeXML_writeAssociatedPeptides]; the stream
    is the list of the lines written to it. *)
Definition writeXML_peptide (protein_id : string) (peptIt : ScoreHolder)
    (os : list string) : outcome (list string) :=
  let os := os ++ [peptide_seq_line peptIt] in
  _ ← assert_ (bool_decide (protein_id ∈ proteinIds (pPSM peptIt)));
  Done os.

(** When the protein is not in the table, [find] returns [end()] and the
    function reads through it: the model stops there. *)
Definition writeXML_writeAssociatedPeptides (protein_id : string)
    (os : list string) (proteinsToPeptides : gmap string (list ScoreHolder))
  : outcome (list string) :=
  match proteinsToPeptides !! protein_id with
  | Some peptides => iterate (writeXML_peptide protein_id) peptides os
  | None => Abort OutOfBounds
  end.

End WriteXML.

(** The fields of the estimator that the grid search only reads: [e] has
    those of [this]. *)
Definition same_input (this e : ProteinProbEstimator) : Prop :=
  gamma e = gamma this ∧ peptideScores e = peptideScores this ∧
  proteinsToPeptides e = proteinsToPeptides this.

(** A test double whose engine finds no equivalence class. *)
Definition stub_empty : Collaborators := {|
  fido := fun _ _ _ _ => {| probabilityR := []; groupProtNames := [] |};
  calculateFDRs := fun output _ _ => (qvalues output, []);
  calculateMSE_FDR := fun _ estimatedFdrs _ => hd 0 estimatedFdrs;
  calculateRoc := fun _ _ _ => ([], []);
  calculateROC50 := fun _ _ _ => 0
|}.

(** ** The arithmetic of the code in binary64

    Where the rounding of a [double] decides what the code computes, the
    loops of the grid search and the sums and quotients of [buildOutput]
    are given here over the binary64 numbers, operation by operation as the
    source has them. *)
Module Binary64.
Import PrimFloat.
Local Set Warnings "-inexact-float".

(** The conversion of an [int] to a [double]. *)
Definition of_int (z : Z) : float :=
  if (z <? 0)%Z then PrimFloat.opp (PrimFloat.of_uint63 (Uint63.of_Z (- z)))
  else PrimFloat.of_uint63 (Uint63.of_Z z).

(** The values that [for (double x = lower; x <= upper; x += step)] gives
    its variable; [None] when the guard has not failed after [fuel]
    turns. *)
Fixpoint for_values (fuel : nat) (step x upper : float) : option (list float) :=
  match fuel with
  | O => None
  | S n => if PrimFloat.leb x upper
           then cons x <$> for_values n step (x + step)%float upper
           else Some []
  end.

Record GroupPowerBigraph := {
  probabilityR : list float;
  groupProtNames : list (list string)
}.

Record fidoOutput := mk_fidoOutput {
  peps : list float;
  protein_ids : list (list string);
  qvalues : list float
}.

(** Modelled from the spec: the insertion step of [Array::sort], which is
    not among the sources, with the comparison of doubles. *)
Fixpoint sort_insert (x : float * nat) (l : list (float * nat))
  : list (float * nat) :=
  match l with
  | [] => [x]
  | y :: l' => if PrimFloat.leb (fst x) (fst y) then x :: l
               else y :: sort_insert x l'
  end.

(** Modelled from the spec: [Array::sort], which is not among the sources:
    the array in ascending order and the permutation applied. *)
Definition Array_sort (a : list float) : list float * list nat :=
  let ps := foldr sort_insert [] (zip a (seq 0 (length a))) in
  (map fst ps, map snd ps).

Record buildOutput_state := mk_bo {
  bo_protein_ids : list (list string);
  bo_qvalues : list float;
  bo_sumPepSoFar : float
}.

Definition buildOutput_step (sorted : list float) (indices : list nat)
    (names : list (list string)) (k : nat) (st : buildOutput_state)
  : outcome buildOutput_state :=
  i ← at_ indices k;
  ids ← at_ names i;
  p ← at_ sorted k;
  let sum := (bo_sumPepSoFar st + p)%float in
  Done (mk_bo (<[k := ids]> (bo_protein_ids st))
              (<[k := (sum / of_int (wrap_int (Z.of_nat k + 1)))%float]>
                 (bo_qvalues st))
              sum).

Definition buildOutput (proteinGraph : GroupPowerBigraph) : outcome fidoOutput :=
  let sorted := probabilityR proteinGraph in
  _ ← assert_ (negb (length sorted =? 0)%nat);
  let n := length sorted in
  let '(sorted, indices) := Array_sort sorted in
  st ← iterate (buildOutput_step sorted indices (groupProtNames proteinGraph))
               (seq 0 n) (mk_bo (replicate n []) (replicate n 0%float) 0%float);
  Done (mk_fidoOutput sorted (bo_protein_ids st) (bo_qvalues st)).

(** The q-values as the loop computes them, from the turn [k] and the sum
    [sum]. *)
Fixpoint running_mean (k : nat) (sum : float) (p : list float) : list float :=
  match p with
  | [] => []
  | x :: p' =>
      let sum' := (sum + x)%float in
      (sum' / of_int (wrap_int (Z.of_nat k + 1)))%float
        :: running_mean (S k) sum' p'
  end.

End Binary64.

(** * Properties *)

(** ** Machine integers *)

Lemma wrap_int_small (z : Z) : (- 2 ^ 31 <= z <= INT_MAX)%Z -> wrap_int z = z.
Proof.
  unfold wrap_int, INT_MAX. intros Hz.
  rewrite Z.mod_small; lia.
Qed.

Lemma wrap_int_range (z : Z) : (- 2 ^ 31 <= wrap_int z <= INT_MAX)%Z.
Proof.
  unfold wrap_int, INT_MAX.
  pose proof (Z.mod_pos_bound (z + 2 ^ 31) (2 ^ 32) ltac:(lia)). lia.
Qed.

Lemma int_incr_below_max (n : Z) :
  (- 2 ^ 31 <= n < INT_MAX)%Z -> int_incr n = (n + 1)%Z.
Proof. intros Hn. unfold int_incr. apply wrap_int_small. lia. Qed.

Lemma int_incr_neq (n : Z) : int_incr n ≠ n.
Proof.
  unfold int_incr. intros Heq.
  pose proof (wrap_int_range (n + 1)) as Hr. rewrite Heq in Hr.
  destruct (decide (n = INT_MAX)) as [->|Hne].
  - vm_compute in Heq. discriminate.
  - rewrite wrap_int_small in Heq; unfold INT_MAX in *; lia.
Qed.

(** ** Traversal order *)

Lemma in_order_perm (s : gset string) : in_order s ≡ₚ elements s.
Proof. apply merge_sort_Permutation. Qed.

Lemma elem_of_in_order (s : gset string) (x : string) : x ∈ in_order s ↔ x ∈ s.
Proof. rewrite in_order_perm. apply elem_of_elements. Qed.

Lemma NoDup_in_order (s : gset string) : NoDup (in_order s).
Proof. rewrite in_order_perm. apply NoDup_elements. Qed.

Lemma entries_in_order_perm {V : Type} (m : gmap string V) :
  entries_in_order m ≡ₚ map_to_list m.
Proof. apply merge_sort_Permutation. Qed.

Lemma elem_of_entries_in_order {V : Type} (m : gmap string V) (k : string) (v : V) :
  (k, v) ∈ entries_in_order m ↔ m !! k = Some v.
Proof. rewrite entries_in_order_perm. apply elem_of_map_to_list. Qed.

Lemma NoDup_fst_entries_in_order {V : Type} (m : gmap string V) :
  NoDup (map fst (entries_in_order m)).
Proof.
  rewrite (entries_in_order_perm m). apply NoDup_fst_map_to_list.
Qed.

(** ** The association index *)

Section IntraSetRelationFacts.
Import IntraSetRelation.

Lemma count_up_eq (k : string) (m : gmap string Z) :
  count_up k m !! k = Some (counted (m !! k)).
Proof.
  unfold count_up. destruct (m !! k) eqn:E; simpl; by rewrite lookup_insert_eq.
Qed.

Lemma count_up_ne (k j : string) (m : gmap string Z) :
  k ≠ j -> count_up k m !! j = m !! j.
Proof.
  intros Hne. unfold count_up.
  destruct (m !! k); by rewrite lookup_insert_ne.
Qed.

Lemma subscript_fst (k : string) (m : gmap string (gset string)) :
  fst (subscript k m) = default ∅ (m !! k).
Proof. unfold subscript. by destruct (m !! k). Qed.

Lemma subscript_snd_eq (k : string) (m : gmap string (gset string)) :
  snd (subscript k m) !! k = Some (default ∅ (m !! k)).
Proof.
  unfold subscript. destruct (m !! k) eqn:E; simpl; [done|].
  by rewrite lookup_insert_eq.
Qed.

Lemma subscript_snd_ne (k j : string) (m : gmap string (gset string)) :
  k ≠ j -> snd (subscript k m) !! j = m !! j.
Proof.
  intros Hne. unfold subscript. destruct (m !! k); simpl; [done|].
  by rewrite lookup_insert_ne.
Qed.

Lemma registerRel_step_unfold (pep : string) (r : t) (p : string) :
  registerRel_step pep r p =
  mk (count_up p (numProteins r)) (numPeptides r)
     (<[p := {[pep]} ∪ fst (subscript p (prot2pep r))]>
        (snd (subscript p (prot2pep r)))).
Proof. unfold registerRel_step. by destruct (subscript p (prot2pep r)). Qed.

(** The loop of [registerRel] over distinct proteins. *)
Lemma registerRel_loop (pep : string) (l : list string) :
  NoDup l -> forall r : t,
  let r' := foldl (registerRel_step pep) r l in
  numPeptides r' = numPeptides r ∧
  (∀ p, p ∈ l ->
     numProteins r' !! p = Some (counted (numProteins r !! p)) ∧
     prot2pep r' !! p = Some ({[pep]} ∪ default ∅ (prot2pep r !! p))) ∧
  (∀ p, p ∉ l ->
     numProteins r' !! p = numProteins r !! p ∧
     prot2pep r' !! p = prot2pep r !! p).
Proof.
  induction 1 as [|x l Hx Hnd IH]; intros r; simpl.
  - split; [done|]. split; [|done]. intros p Hp. by apply elem_of_nil in Hp.
  - specialize (IH (registerRel_step pep r x)). simpl in IH.
    destruct IH as (Hpep & Hin & Hout).
    assert (Hstep_x : numProteins (registerRel_step pep r x) !! x
                        = Some (counted (numProteins r !! x)) ∧
                      prot2pep (registerRel_step pep r x) !! x
                        = Some ({[pep]} ∪ default ∅ (prot2pep r !! x))).
    { rewrite registerRel_step_unfold. simpl.
      rewrite count_up_eq, lookup_insert_eq, subscript_fst. done. }
    assert (Hstep_ne : ∀ p, p ≠ x ->
              numProteins (registerRel_step pep r x) !! p = numProteins r !! p ∧
              prot2pep (registerRel_step pep r x) !! p = prot2pep r !! p).
    { intros p Hne. rewrite registerRel_step_unfold. simpl.
      rewrite count_up_ne by done.
      rewrite lookup_insert_ne by done.
      by rewrite subscript_snd_ne by done. }
    split; [by rewrite Hpep, registerRel_step_unfold|].
    split.
    + intros p Hp. apply elem_of_cons in Hp as [->|Hp].
      * destruct (Hout x Hx) as [-> ->]. done.
      * assert (p ≠ x) as Hne by (intros ->; done).
        destruct (Hin p Hp) as [-> ->].
        destruct (Hstep_ne p Hne) as [-> ->]. done.
    + intros p Hp. apply not_elem_of_cons in Hp as [Hne Hp].
      destruct (Hout p Hp) as [-> ->]. by apply Hstep_ne.
Qed.

Lemma registerRel_numPeptides (pep : string) (prot : gset string) (r : t) :
  numPeptides (registerRel pep prot r) = count_up pep (numPeptides r).
Proof.
  unfold registerRel.
  by destruct (registerRel_loop pep (in_order prot) (NoDup_in_order prot)
    (mk (numProteins r) (count_up pep (numPeptides r)) (prot2pep r)))
    as (-> & _).
Qed.

Lemma registerRel_in (pep : string) (prot : gset string) (r : t) (p : string) :
  p ∈ prot ->
  numProteins (registerRel pep prot r) !! p = Some (counted (numProteins r !! p)) ∧
  prot2pep (registerRel pep prot r) !! p
    = Some ({[pep]} ∪ default ∅ (prot2pep r !! p)).
Proof.
  intros Hp. unfold registerRel.
  destruct (registerRel_loop pep (in_order prot) (NoDup_in_order prot)
    (mk (numProteins r) (count_up pep (numPeptides r)) (prot2pep r)))
    as (_ & Hin & _).
  apply Hin. by apply elem_of_in_order.
Qed.

Lemma registerRel_out (pep : string) (prot : gset string) (r : t) (p : string) :
  p ∉ prot ->
  numProteins (registerRel pep prot r) !! p = numProteins r !! p ∧
  prot2pep (registerRel pep prot r) !! p = prot2pep r !! p.
Proof.
  intros Hp. unfold registerRel.
  destruct (registerRel_loop pep (in_order prot) (NoDup_in_order prot)
    (mk (numProteins r) (count_up pep (numPeptides r)) (prot2pep r)))
    as (_ & _ & Hout).
  apply Hout. by rewrite elem_of_in_order.
Qed.

(** A traversal of a set meets no element twice. *)
Lemma not_appears_twice (pep : string) (s : gset string) :
  ¬ appears_twice pep s.
Proof.
  intros (i & j & Hne & Hi & Hj). apply Hne.
  eapply NoDup_lookup; [apply NoDup_in_order|done..].
Qed.

End IntraSetRelationFacts.

(** C9, as amended. Registering the same peptide with the same protein set a
    second time increments the peptide's count and the count of every listed
    protein once more, so the index after the second call differs from the
    index after the first; the peptide sets of the proteins stay as they
    were: each holds the peptide, and a traversal meets it once. *)
Theorem registerRel_twice (pep : string) (prot : gset string)
    (r : IntraSetRelation.t) :
  let r1 := IntraSetRelation.registerRel pep prot r in
  let r2 := IntraSetRelation.registerRel pep prot r1 in
  (∃ c : Z, IntraSetRelation.numPeptides r1 !! pep = Some c ∧
            IntraSetRelation.numPeptides r2 !! pep = Some (int_incr c)) ∧
  (∀ p : string, p ∈ prot ->
     ∃ c : Z, IntraSetRelation.numProteins r1 !! p = Some c ∧
              IntraSetRelation.numProteins r2 !! p = Some (int_incr c)) ∧
  r2 ≠ r1 ∧
  IntraSetRelation.prot2pep r2 = IntraSetRelation.prot2pep r1 ∧
  (∀ p : string, p ∈ prot ->
     ∃ s : gset string, IntraSetRelation.prot2pep r2 !! p = Some s ∧ pep ∈ s ∧
                        ¬ IntraSetRelation.appears_twice pep s).
Proof.
  intros r1 r2.
  assert (Hpep : ∃ c : Z, IntraSetRelation.numPeptides r1 !! pep = Some c ∧
            IntraSetRelation.numPeptides r2 !! pep = Some (int_incr c)).
  { exists (IntraSetRelation.counted (IntraSetRelation.numPeptides r !! pep)).
    subst r2 r1. rewrite !registerRel_numPeptides, !count_up_eq. done. }
  split; [exact Hpep|]. split; [|split; [|split]].
  - intros p Hp.
    exists (IntraSetRelation.counted (IntraSetRelation.numProteins r !! p)).
    destruct (registerRel_in pep prot r p Hp) as [H1 _].
    destruct (registerRel_in pep prot r1 p Hp) as [H2 _].
    fold r1 in H1. fold r2 in H2. rewrite H2, H1. done.
  - destruct Hpep as (c & H1 & H2). intros Heq. rewrite Heq, H1 in H2.
    injection H2 as H2. symmetry in H2. by apply int_incr_neq in H2.
  - apply map_eq. intros p. destruct (decide (p ∈ prot)) as [Hp|Hp].
    + destruct (registerRel_in pep prot r p Hp) as [_ H1].
      destruct (registerRel_in pep prot r1 p Hp) as [_ H2].
      fold r1 in H1. fold r2 in H2. rewrite H2, H1. simpl.
      f_equal. by rewrite (assoc_L (∪)), (idemp_L (∪)).
    + by destruct (registerRel_out pep prot r1 p Hp) as [_ H2].
  - intros p Hp.
    destruct (registerRel_in pep prot r1 p Hp) as [_ H2]. fold r2 in H2.
    eexists. split; [exact H2|]. split; [by apply elem_of_union_l, elem_of_singleton|].
    apply not_appears_twice.
Qed.

(** C9 at a concrete input: the index and the peptide sets after the peptide
    "K.ELVISK.L" was registered twice with the proteins "P1" and "P2". *)
Lemma registerRel_twice_witness :
  let prot : gset string := {["P1"%string; "P2"%string]} in
  let r1 := IntraSetRelation.registerRel "K.ELVISK.L" prot IntraSetRelation.empty in
  let r2 := IntraSetRelation.registerRel "K.ELVISK.L" prot r1 in
  IntraSetRelation.numPeptides r2 !! "K.ELVISK.L"%string = Some 2%Z ∧
  r2 ≠ r1 ∧
  IntraSetRelation.prot2pep r2 = IntraSetRelation.prot2pep r1.
Proof.
  intros prot r1 r2.
  destruct (registerRel_twice "K.ELVISK.L" prot IntraSetRelation.empty)
    as (_ & _ & Hne & Hsets & _).
  split; [vm_compute; reflexivity|]. split; [exact Hne|exact Hsets].
Defined.

(** C9 as stated fails: after two registrations of the peptide with the
    protein "P1", the peptide is not met twice in the peptide collection of
    "P1"; the collection is the one-element set. *)
Lemma registerRel_twice_no_duplicate :
  let prot : gset string := {["P1"%string]} in
  let r2 := IntraSetRelation.registerRel "K.ELVISK.L" prot
              (IntraSetRelation.registerRel "K.ELVISK.L" prot
                 IntraSetRelation.empty) in
  IntraSetRelation.prot2pep r2 !! "P1"%string = Some {["K.ELVISK.L"%string]} ∧
  ¬ (∀ p : string, p ∈ prot ->
       ∃ s : gset string, IntraSetRelation.prot2pep r2 !! p = Some s ∧
                          IntraSetRelation.appears_twice "K.ELVISK.L" s).
Proof.
  intros prot r2. split; [vm_compute; reflexivity|].
  intros H. destruct (H "P1"%string) as (s & _ & Hs); [by apply elem_of_singleton|].
  by apply not_appears_twice in Hs.
Qed.

(** A query on a protein id that was never registered leaves an entry for
    it behind. *)
Lemma getPepSites_step_frame (st : Z * IntraSetRelation.t) (p : string) :
  let st' := IntraSetRelation.getPepSites_step st p in
  IntraSetRelation.numProteins (snd st') = IntraSetRelation.numProteins (snd st) ∧
  IntraSetRelation.numPeptides (snd st') = IntraSetRelation.numPeptides (snd st) ∧
  IntraSetRelation.prot2pep (snd st') !! p
    = Some (default ∅ (IntraSetRelation.prot2pep (snd st) !! p)) ∧
  (∀ q : string, q ≠ p ->
     IntraSetRelation.prot2pep (snd st') !! q
       = IntraSetRelation.prot2pep (snd st) !! q).
Proof.
  destruct st as [maxn r]. unfold IntraSetRelation.getPepSites_step. simpl.
  pose proof (subscript_snd_eq p (IntraSetRelation.prot2pep r)) as Heq.
  pose proof (subscript_snd_ne p) as Hne.
  destruct (IntraSetRelation.subscript p (IntraSetRelation.prot2pep r))
    as [s p2p] eqn:E. simpl in *.
  split; [done|]. split; [done|]. split; [done|].
  intros q Hq. specialize (Hne q (IntraSetRelation.prot2pep r)).
  rewrite E in Hne. simpl in Hne. apply Hne. done.
Qed.

(** What [getPepSites] leaves unchanged: the two counters, and the peptide
    set found under every protein id; what it changes: every queried id has
    an entry afterwards. *)
Lemma getPepSites_frame (prot : gset string) (r : IntraSetRelation.t) :
  let r' := snd (IntraSetRelation.getPepSites prot r) in
  IntraSetRelation.numProteins r' = IntraSetRelation.numProteins r ∧
  IntraSetRelation.numPeptides r' = IntraSetRelation.numPeptides r ∧
  (∀ p : string,
     default ∅ (IntraSetRelation.prot2pep r' !! p)
       = default ∅ (IntraSetRelation.prot2pep r !! p)) ∧
  (∀ p : string, p ∈ prot -> is_Some (IntraSetRelation.prot2pep r' !! p)).
Proof.
  unfold IntraSetRelation.getPepSites.
  assert (Hgen : ∀ (l : list string) (st : Z * IntraSetRelation.t),
    let r' := snd (foldl IntraSetRelation.getPepSites_step st l) in
    IntraSetRelation.numProteins r' = IntraSetRelation.numProteins (snd st) ∧
    IntraSetRelation.numPeptides r' = IntraSetRelation.numPeptides (snd st) ∧
    (∀ p : string,
       default ∅ (IntraSetRelation.prot2pep r' !! p)
         = default ∅ (IntraSetRelation.prot2pep (snd st) !! p)) ∧
    (∀ p : string, is_Some (IntraSetRelation.prot2pep (snd st) !! p) ∨ p ∈ l ->
       is_Some (IntraSetRelation.prot2pep r' !! p))).
  { induction l as [|x l IH]; intros st; simpl.
    - split; [done|]. split; [done|]. split; [done|].
      intros p [Hp|Hp]; [done|]. by apply elem_of_nil in Hp.
    - destruct (IH (IntraSetRelation.getPepSites_step st x)) as (H1 & H2 & H3 & H4).
      destruct (getPepSites_step_frame st x) as (S1 & S2 & S3 & S4).
      simpl in *.
      split; [by rewrite H1|]. split; [by rewrite H2|]. split.
      + intros p. rewrite H3. destruct (decide (p = x)) as [->|Hne].
        * by rewrite S3.
        * by rewrite S4.
      + intros p Hp. apply H4. destruct (decide (p = x)) as [->|Hne].
        * left. by rewrite S3.
        * destruct Hp as [Hp|Hp].
          -- left. by rewrite S4.
          -- right. apply elem_of_cons in Hp as [->|Hp]; done. }
  destruct (Hgen (in_order prot) (0%Z, r)) as (H1 & H2 & H3 & H4).
  simpl in *.
  split; [done|]. split; [done|]. split; [done|].
  intros p Hp. apply H4. right. by apply elem_of_in_order.
Qed.

(** C10 at the failing input: on the empty index, the query for the protein
    set {"P"} returns 0 and leaves the entry "P" in [prot2pep], which was
    empty before. *)
Theorem getPepSites_not_pure :
  IntraSetRelation.getPepSites {["P"%string]} IntraSetRelation.empty
    = (0%Z, IntraSetRelation.mk ∅ ∅ {["P"%string := ∅]}) ∧
  IntraSetRelation.prot2pep
    (snd (IntraSetRelation.getPepSites {["P"%string]} IntraSetRelation.empty))
    ≠ IntraSetRelation.prot2pep IntraSetRelation.empty.
Proof.
  split; [vm_compute; reflexivity|].
  intros H.
  assert (Hl : IntraSetRelation.prot2pep
    (snd (IntraSetRelation.getPepSites {["P"%string]} IntraSetRelation.empty))
    !! "P"%string = (∅ : gmap string (gset string)) !! "P"%string).
  { rewrite H. done. }
  vm_compute in Hl. discriminate.
Qed.

(** ** Abort and loops *)

Lemma bind_Done {A B : Type} (f : A -> outcome B) (a : A) :
  (Done a ≫= f) = f a.
Proof. reflexivity. Qed.

Lemma bind_Abort {A B : Type} (f : A -> outcome B) (why : abort) :
  (Abort why ≫= f) = Abort why.
Proof. reflexivity. Qed.

Lemma iterate_app {A S : Type} (body : A -> S -> outcome S) (xs ys : list A) (s : S) :
  iterate body (xs ++ ys) s = (iterate body xs s ≫= iterate body ys).
Proof.
  revert s. induction xs as [|x xs IH]; intros s; simpl; [done|].
  destruct (body x s) as [s'|why]; simpl; [apply IH|done].
Qed.

Lemma at_Some {A : Type} (a : list A) (i : nat) (x : A) :
  a !! i = Some x -> at_ a i = Done x.
Proof. unfold at_. by intros ->. Qed.

(** ** Sorting the posterior errors *)

Local Open Scope Q_scope.

Lemma Qle_bool_false (x y : Q) : Qle_bool x y = false -> y <= x.
Proof.
  intros H. apply Qlt_le_weak, Qnot_le_lt. intros Hle.
  apply Qle_bool_iff in Hle. congruence.
Qed.

Lemma sort_insert_perm (x : Q * nat) (l : list (Q * nat)) :
  sort_insert x l ≡ₚ x :: l.
Proof.
  induction l as [|y l IH]; simpl; [done|].
  destruct (Qle_bool (fst x) (fst y)); [done|].
  rewrite IH. apply perm_swap.
Qed.

Lemma sort_insert_HdRel (a x : Q * nat) (l : list (Q * nat)) :
  fst_le a x -> HdRel fst_le a l -> HdRel fst_le a (sort_insert x l).
Proof.
  intros Hax Hal. destruct l as [|y l]; simpl; [by constructor|].
  destruct (Qle_bool (fst x) (fst y)); constructor; [done|].
  by inversion Hal.
Qed.

Lemma sort_insert_Sorted (x : Q * nat) (l : list (Q * nat)) :
  Sorted fst_le l -> Sorted fst_le (sort_insert x l).
Proof.
  induction 1 as [|y l Hl IH Hy]; simpl.
  - by repeat constructor.
  - destruct (Qle_bool (fst x) (fst y)) eqn:E.
    + constructor; [by constructor|].
      constructor. by apply Qle_bool_iff.
    + constructor; [done|].
      apply sort_insert_HdRel; [|done]. by apply Qle_bool_false.
Qed.

Lemma sort_pairs_perm (l : list (Q * nat)) : foldr sort_insert [] l ≡ₚ l.
Proof.
  induction l as [|x l IH]; simpl; [done|].
  by rewrite sort_insert_perm, IH.
Qed.

Lemma sort_pairs_Sorted (l : list (Q * nat)) : Sorted fst_le (foldr sort_insert [] l).
Proof.
  induction l as [|x l IH]; simpl; [constructor|].
  by apply sort_insert_Sorted.
Qed.

Lemma Sorted_map_fst (l : list (Q * nat)) :
  Sorted fst_le l -> Sorted Qle (map fst l).
Proof.
  induction 1 as [|y l Hl IH Hy]; simpl; constructor; [done|].
  destruct Hy; simpl; by constructor.
Qed.

(** The contract of [Array::sort]: the values come out ascending, and the
    indices returned tell, position by position, where each value was. *)
Lemma Array_sort_spec (a : list Q) :
  let '(sorted, indices) := Array_sort a in
  Sorted Qle sorted ∧
  indices ≡ₚ seq 0 (length a) ∧
  length sorted = length a ∧
  (∀ (k i : nat), indices !! k = Some i -> sorted !! k = a !! i ∧ (i < length a)%nat).
Proof.
  unfold Array_sort.
  set (ps := foldr sort_insert [] (zip a (seq 0 (length a)))).
  assert (Hperm : ps ≡ₚ zip a (seq 0 (length a))) by apply sort_pairs_perm.
  split; [apply Sorted_map_fst, sort_pairs_Sorted|].
  split; [|split].
  - change (map snd ps) with (ps.*2). rewrite Hperm.
    rewrite snd_zip; [done|]. by rewrite length_seq.
  - rewrite length_map, Hperm, length_zip, length_seq. lia.
  - intros k i Hk. rewrite !list_lookup_fmap in *.
    destruct (ps !! k) as [[v j]|] eqn:E; simpl in *; [|done].
    injection Hk as ->.
    assert (Hin : (v, i) ∈ zip a (seq 0 (length a))).
    { rewrite <- Hperm. by apply list_elem_of_lookup_2 in E. }
    apply list_elem_of_lookup in Hin as [m Hm].
    apply lookup_zip_with_Some in Hm as (v' & i' & Heq & Hv & Hi).
    injection Heq as -> ->.
    apply lookup_seq in Hi as [-> Hlt]. simpl. done.
Qed.

(** ** The aggregation of an inference result *)

(** The loop of [buildOutput] from its turn [k] on, when every index that
    the sort returned is an index of the array of names: the turns left fill
    the arrays from position [k] on and abort nowhere. *)
Lemma buildOutput_loop (sorted : list Q) (indices : list nat)
    (names : list (list string)) (n : nat) :
  length sorted = n -> length indices = n ->
  (∀ k i : nat, indices !! k = Some i -> is_Some (names !! i)) ->
  ∀ (m k : nat) (st : buildOutput_state),
    (k + m)%nat = n ->
    length (bo_protein_ids st) = n -> length (bo_qvalues st) = n ->
    ∃ st' : buildOutput_state,
      iterate (buildOutput_step sorted indices names) (seq k m) st = Done st' ∧
      bo_protein_ids st'
        = take k (bo_protein_ids st)
          ++ ((fun i => default [] (names !! i)) <$> drop k indices) ∧
      bo_qvalues st'
        = take k (bo_qvalues st)
          ++ running_mean k (bo_sumPepSoFar st) (drop k sorted).
Proof.
  intros Hsorted Hindices Hnames.
  induction m as [|m IH]; intros k st Hk Hids Hq.
  - exists st. simpl. split; [done|].
    rewrite !take_ge, !drop_ge, !app_nil_r by lia. done.
  - destruct (lookup_lt_is_Some_2 indices k) as [i Hi]; [lia|].
    destruct (lookup_lt_is_Some_2 sorted k) as [p Hp]; [lia|].
    destruct (Hnames k i Hi) as [ids Hidsi].
    assert (Hstep : buildOutput_step sorted indices names k st
              = Done (mk_bo (<[k := ids]> (bo_protein_ids st))
                       (<[k := (bo_sumPepSoFar st + p)
                                / inject_Z (wrap_int (Z.of_nat k + 1))]>
                          (bo_qvalues st))
                       (bo_sumPepSoFar st + p))).
    { unfold buildOutput_step.
      by rewrite (at_Some _ _ _ Hi), bind_Done, (at_Some _ _ _ Hidsi),
        bind_Done, (at_Some _ _ _ Hp), bind_Done. }
    change (seq k (S m)) with (k :: seq (S k) m).
    cbn [iterate]. rewrite Hstep, bind_Done.
    set (st1 := mk_bo _ _ _).
    destruct (IH (S k) st1) as (st' & Hrun & Hids' & Hq');
      [lia|by (subst st1; simpl; rewrite length_insert)..|].
    exists st'. split; [exact Hrun|].
    rewrite Hids', Hq'. subst st1. simpl.
    rewrite (drop_S indices i k Hi), (drop_S sorted p k Hp). simpl.
    rewrite (take_S_r (<[k:=ids]> (bo_protein_ids st)) k ids)
      by (apply list_lookup_insert_eq; lia).
    rewrite (take_S_r (<[k:=_]> (bo_qvalues st)) k _)
      by (apply list_lookup_insert_eq; lia).
    rewrite !take_insert_ge by lia.
    rewrite <- !app_assoc. simpl. rewrite Hidsi. done.
Qed.

(** What [buildOutput] returns for an inference result that is not empty and
    has a group of names for each posterior error. *)
Lemma buildOutput_Done (g : GroupPowerBigraph) :
  probabilityR g ≠ [] ->
  length (groupProtNames g) = length (probabilityR g) ->
  let '(sorted, indices) := Array_sort (probabilityR g) in
  buildOutput g
    = Done (mk_fidoOutput sorted
              ((fun i => default [] (groupProtNames g !! i)) <$> indices)
              (running_mean 0 0 sorted)).
Proof.
  intros Hne Hlen. unfold buildOutput.
  pose proof (Array_sort_spec (probabilityR g)) as Hspec.
  destruct (Array_sort (probabilityR g)) as [sorted indices].
  destruct Hspec as (_ & Hperm & Hlsorted & Hidx).
  assert (Hlidx : length indices = length (probabilityR g)).
  { by rewrite Hperm, length_seq. }
  destruct (probabilityR g) as [|p0 ps] eqn:E; [done|].
  change (assert_ (negb (length (p0 :: ps) =? 0)%nat)) with (Done tt).
  rewrite bind_Done.
  destruct (buildOutput_loop sorted indices (groupProtNames g)
              (length (p0 :: ps)) Hlsorted Hlidx) with
    (m := length (p0 :: ps)) (k := 0%nat)
    (st := mk_bo (replicate (length (p0 :: ps)) [])
                 (replicate (length (p0 :: ps)) 0) 0)
    as (st' & Hrun & Hids & Hq).
  - intros k i Hk. apply lookup_lt_is_Some_2. rewrite Hlen.
    by destruct (Hidx k i Hk).
  - done.
  - apply length_replicate.
  - apply length_replicate.
  - rewrite Hrun, bind_Done. rewrite Hids, Hq. simpl. done.
Qed.

(** The sum so far over [n + 2] values, when the q-value before is the sum
    of the first [n + 1] over [n + 1]. *)
Lemma mean_step (n s x : Q) :
  0 <= n -> (s + x) / (n + 1 + 1) == ((n + 1) * (s / (n + 1)) + x) / (n + 1 + 1).
Proof.
  intros Hn. field. split; lra.
Qed.

Lemma inject_Z_nat_nonneg (k : nat) : 0 <= inject_Z (Z.of_nat k).
Proof. change 0 with (inject_Z 0). rewrite <- Zle_Qle. lia. Qed.

Lemma running_mean_recurrence (p : list Q) :
  ∀ (k : nat) (sum : Q),
    (Z.of_nat k + Z.of_nat (length p) <= INT_MAX)%Z ->
    length (running_mean k sum p) = length p ∧
    (∀ x q0 : Q, p !! 0%nat = Some x -> running_mean k sum p !! 0%nat = Some q0 ->
       q0 = (sum + x) / inject_Z (Z.of_nat k + 1)) ∧
    (∀ (j : nat) (pj qj qprev : Q),
       (1 <= j)%nat ->
       p !! j = Some pj -> running_mean k sum p !! j = Some qj ->
       running_mean k sum p !! (j - 1)%nat = Some qprev ->
       qj == (inject_Z (Z.of_nat (k + j)) * qprev + pj)
             / inject_Z (Z.of_nat (k + j) + 1)).
Proof.
  induction p as [|x p IH]; intros k sum Hk.
  - split; [done|]. split; intros; done.
  - simpl in Hk.
    destruct (IH (S k) (sum + x)) as (Hlen & Hhead & Htail); [lia|].
    assert (Hw : wrap_int (Z.of_nat k + 1) = (Z.of_nat k + 1)%Z).
    { apply wrap_int_small. unfold INT_MAX in *. lia. }
    cbn [running_mean]. rewrite Hw.
    split; [by simpl; rewrite Hlen|]. split.
    + intros x' q0 Hx Hq. simpl in Hx, Hq. congruence.
    + intros j pj qj qprev Hj Hpj Hqj Hprev.
      destruct j as [|j]; [lia|]. simpl in Hpj, Hqj.
      replace (S j - 1)%nat with j in Hprev by lia.
      destruct j as [|j].
      * simpl in Hprev. injection Hprev as <-.
        rewrite (Hhead pj qj Hpj Hqj).
        replace (Z.of_nat (k + 1)) with (Z.of_nat k + 1)%Z by lia.
        replace (Z.of_nat (S k) + 1)%Z with (Z.of_nat k + 1 + 1)%Z by lia.
        rewrite !inject_Z_plus.
        change (inject_Z 1) with 1.
        rewrite <- Qplus_assoc.
        rewrite <- (mean_step (inject_Z (Z.of_nat k)) (sum + x) pj).
        -- rewrite !Qplus_assoc. reflexivity.
        -- apply inject_Z_nat_nonneg.
      * simpl in Hprev.
        replace (k + S (S j))%nat with (S k + S j)%nat by lia.
        apply (Htail (S j) pj qj qprev); [lia|done|done|].
        by replace (S j - 1)%nat with j by lia.
Qed.

Lemma length_running_mean (p : list Q) (k : nat) (sum : Q) :
  length (running_mean k sum p) = length p.
Proof.
  revert k sum. induction p as [|x p IH]; intros k sum; simpl; [done|].
  by rewrite IH.
Qed.

Lemma buildOutput_nil (names : list (list string)) :
  buildOutput {| probabilityR := []; groupProtNames := names |}
    = Abort AssertionFailed.
Proof. reflexivity. Qed.

(** C5. An inference result with no equivalence class makes [buildOutput]
    abort on its assertion: no output is returned for it. *)
Theorem buildOutput_empty_aborts (g : GroupPowerBigraph) :
  probabilityR g = [] -> buildOutput g = Abort AssertionFailed.
Proof.
  destruct g as [ps names]. simpl. intros ->. apply buildOutput_nil.
Qed.

Lemma buildOutput_empty_aborts_witness :
  buildOutput {| probabilityR := []; groupProtNames := [] |}
    = Abort AssertionFailed.
Proof. apply buildOutput_empty_aborts. reflexivity. Defined.

(** C6. For an inference result that is not empty and has one group of
    names per posterior error, [buildOutput] returns an output whose three
    arrays have the length of the input, whose posterior errors are in
    non-decreasing order, and whose groups of names went through the
    permutation that sorted the posterior errors. *)
Theorem buildOutput_aligned_sorted (g : GroupPowerBigraph) :
  probabilityR g ≠ [] ->
  length (groupProtNames g) = length (probabilityR g) ->
  ∃ out : fidoOutput,
    buildOutput g = Done out ∧
    length (peps out) = length (probabilityR g) ∧
    length (protein_ids out) = length (peps out) ∧
    length (qvalues out) = length (peps out) ∧
    Sorted Qle (peps out) ∧
    ∃ indices : list nat,
      indices ≡ₚ seq 0 (length (probabilityR g)) ∧
      ∀ k i : nat, indices !! k = Some i ->
        peps out !! k = probabilityR g !! i ∧
        protein_ids out !! k = groupProtNames g !! i.
Proof.
  intros Hne Hlen.
  pose proof (buildOutput_Done g Hne Hlen) as Hrun.
  pose proof (Array_sort_spec (probabilityR g)) as Hspec.
  destruct (Array_sort (probabilityR g)) as [sorted indices].
  destruct Hspec as (Hsorted & Hperm & Hlsorted & Hidx).
  eexists. split; [exact Hrun|]. simpl.
  split; [done|]. split; [by rewrite length_fmap, Hperm, length_seq|].
  split; [apply length_running_mean|]. split; [done|].
  exists indices. split; [done|].
  intros k i Hk. destruct (Hidx k i Hk) as [Hv Hlt]. split; [done|].
  rewrite list_lookup_fmap, Hk. simpl.
  destruct (lookup_lt_is_Some_2 (groupProtNames g) i) as [ids Hids]; [lia|].
  by rewrite Hids.
Qed.

Lemma buildOutput_aligned_sorted_witness :
  ∃ out : fidoOutput,
    buildOutput {| probabilityR := [0.3; 0.1; 0.2];
                   groupProtNames := [["C"]; ["A"]; ["B"]]%string |} = Done out ∧
    peps out = [0.1; 0.2; 0.3] ∧
    protein_ids out = [["A"]; ["B"]; ["C"]]%string.
Proof.
  destruct (buildOutput_aligned_sorted
              {| probabilityR := [0.3; 0.1; 0.2];
                 groupProtNames := [["C"]; ["A"]; ["B"]]%string |})
    as (out & Hrun & _); [done|reflexivity|].
  exists out. split; [exact Hrun|].
  vm_compute in Hrun. injection Hrun as <-. split; reflexivity.
Defined.

(** With exact sums and quotients, the running sum over [k + 1] that
    [buildOutput] computes satisfies the recurrence [q[0] = p[0]],
    [q[k] = (k * q[k-1] + p[k]) / (k+1)] over the sorted posterior errors
    [p]. The code computes in binary64, where each sum and each quotient is
    rounded: see [Binary64.buildOutput]. *)
Lemma buildOutput_qvalues_exact_arithmetic (g : GroupPowerBigraph) :
  probabilityR g ≠ [] ->
  length (groupProtNames g) = length (probabilityR g) ->
  (Z.of_nat (length (probabilityR g)) <= INT_MAX)%Z ->
  ∃ out : fidoOutput,
    buildOutput g = Done out ∧
    peps out = fst (Array_sort (probabilityR g)) ∧
    cumulative_mean_recurrence (peps out) (qvalues out).
Proof.
  intros Hne Hlen Hint.
  pose proof (buildOutput_Done g Hne Hlen) as Hrun.
  pose proof (Array_sort_spec (probabilityR g)) as Hspec.
  destruct (Array_sort (probabilityR g)) as [sorted indices].
  destruct Hspec as (_ & _ & Hlsorted & _).
  eexists. split; [exact Hrun|]. simpl. split; [done|].
  destruct (running_mean_recurrence sorted 0 0) as (Hl & Hhead & Htail).
  { rewrite Hlsorted. simpl. lia. }
  split; [done|]. split.
  - intros p0 q0 Hp Hq. rewrite (Hhead p0 q0 Hp Hq).
    change (inject_Z (Z.of_nat 0 + 1)) with 1. field.
  - intros k pk qk qprev Hk Hpk Hqk Hprev.
    apply (Htail k pk qk qprev Hk Hpk Hqk Hprev).
Qed.

(** ** The aggregation in binary64 *)

Section Binary64Facts.
Import PrimFloat.
Local Set Warnings "-inexact-float".

Lemma binary64_sort_insert_perm (x : float * nat) (l : list (float * nat)) :
  Binary64.sort_insert x l ≡ₚ x :: l.
Proof.
  induction l as [|y l IH]; simpl; [done|].
  destruct (PrimFloat.leb (fst x) (fst y)); [done|].
  rewrite IH. apply perm_swap.
Qed.

Lemma binary64_sort_pairs_perm (l : list (float * nat)) :
  foldr Binary64.sort_insert [] l ≡ₚ l.
Proof.
  induction l as [|x l IH]; simpl; [done|].
  by rewrite binary64_sort_insert_perm, IH.
Qed.

(** What the model of [Array::sort] over doubles is used for: the values
    come out in another order, and the indices returned tell, position by
    position, where each value was. *)
Lemma binary64_Array_sort_spec (a : list float) :
  let '(sorted, indices) := Binary64.Array_sort a in
  sorted ≡ₚ a ∧
  indices ≡ₚ seq 0 (length a) ∧
  length sorted = length a ∧
  (∀ (k i : nat), indices !! k = Some i -> sorted !! k = a !! i ∧ (i < length a)%nat).
Proof.
  unfold Binary64.Array_sort.
  set (ps := foldr Binary64.sort_insert [] (zip a (seq 0 (length a)))).
  assert (Hperm : ps ≡ₚ zip a (seq 0 (length a)))
    by apply binary64_sort_pairs_perm.
  split; [|split; [|split]].
  - change (map fst ps) with (ps.*1). rewrite Hperm.
    rewrite fst_zip; [done|]. by rewrite length_seq.
  - change (map snd ps) with (ps.*2). rewrite Hperm.
    rewrite snd_zip; [done|]. by rewrite length_seq.
  - rewrite length_map, Hperm, length_zip, length_seq. lia.
  - intros k i Hk. rewrite !list_lookup_fmap in *.
    destruct (ps !! k) as [[v j]|] eqn:E; simpl in *; [|done].
    injection Hk as ->.
    assert (Hin : (v, i) ∈ zip a (seq 0 (length a))).
    { rewrite <- Hperm. by apply list_elem_of_lookup_2 in E. }
    apply list_elem_of_lookup in Hin as [m Hm].
    apply lookup_zip_with_Some in Hm as (v' & i' & Heq & Hv & Hi).
    injection Heq as -> ->.
    apply lookup_seq in Hi as [-> Hlt]. simpl. done.
Qed.

(** The loop of [buildOutput] from its turn [k] on, over doubles. *)
Lemma binary64_buildOutput_loop (sorted : list float) (indices : list nat)
    (names : list (list string)) (n : nat) :
  length sorted = n -> length indices = n ->
  (∀ k i : nat, indices !! k = Some i -> is_Some (names !! i)) ->
  ∀ (m k : nat) (st : Binary64.buildOutput_state),
    (k + m)%nat = n ->
    length (Binary64.bo_protein_ids st) = n ->
    length (Binary64.bo_qvalues st) = n ->
    ∃ st' : Binary64.buildOutput_state,
      iterate (Binary64.buildOutput_step sorted indices names) (seq k m) st
        = Done st' ∧
      Binary64.bo_protein_ids st'
        = take k (Binary64.bo_protein_ids st)
          ++ ((fun i => default [] (names !! i)) <$> drop k indices) ∧
      Binary64.bo_qvalues st'
        = take k (Binary64.bo_qvalues st)
          ++ Binary64.running_mean k (Binary64.bo_sumPepSoFar st) (drop k sorted).
Proof.
  intros Hsorted Hindices Hnames.
  induction m as [|m IH]; intros k st Hk Hids Hq.
  - exists st. simpl. split; [done|].
    rewrite !take_ge, !drop_ge, !app_nil_r by lia. done.
  - destruct (lookup_lt_is_Some_2 indices k) as [i Hi]; [lia|].
    destruct (lookup_lt_is_Some_2 sorted k) as [p Hp]; [lia|].
    destruct (Hnames k i Hi) as [ids Hidsi].
    assert (Hstep : Binary64.buildOutput_step sorted indices names k st
              = Done (Binary64.mk_bo (<[k := ids]> (Binary64.bo_protein_ids st))
                       (<[k := (Binary64.bo_sumPepSoFar st + p)
                                / Binary64.of_int (wrap_int (Z.of_nat k + 1))]>
                          (Binary64.bo_qvalues st))
                       (Binary64.bo_sumPepSoFar st + p))%float).
    { unfold Binary64.buildOutput_step.
      by rewrite (at_Some _ _ _ Hi), bind_Done, (at_Some _ _ _ Hidsi),
        bind_Done, (at_Some _ _ _ Hp), bind_Done. }
    change (seq k (S m)) with (k :: seq (S k) m).
    cbn [iterate]. rewrite Hstep, bind_Done.
    set (st1 := Binary64.mk_bo _ _ _).
    destruct (IH (S k) st1) as (st' & Hrun & Hids' & Hq');
      [lia|by (subst st1; simpl; rewrite length_insert)..|].
    exists st'. split; [exact Hrun|].
    rewrite Hids', Hq'. subst st1. simpl.
    rewrite (drop_S indices i k Hi), (drop_S sorted p k Hp). simpl.
    rewrite (take_S_r (<[k:=ids]> (Binary64.bo_protein_ids st)) k ids)
      by (apply list_lookup_insert_eq; lia).
    rewrite (take_S_r (<[k:=_]> (Binary64.bo_qvalues st)) k _)
      by (apply list_lookup_insert_eq; lia).
    rewrite !take_insert_ge by lia.
    rewrite <- !app_assoc. simpl. rewrite Hidsi. done.
Qed.

(** What [buildOutput] returns over doubles, for an inference result that
    is not empty and has a group of names for each posterior error. *)
Lemma binary64_buildOutput_Done (g : Binary64.GroupPowerBigraph) :
  Binary64.probabilityR g ≠ [] ->
  length (Binary64.groupProtNames g) = length (Binary64.probabilityR g) ->
  let '(sorted, indices) := Binary64.Array_sort (Binary64.probabilityR g) in
  Binary64.buildOutput g
    = Done (Binary64.mk_fidoOutput sorted
              ((fun i => default [] (Binary64.groupProtNames g !! i)) <$> indices)
              (Binary64.running_mean 0 0%float sorted)).
Proof.
  intros Hne Hlen. unfold Binary64.buildOutput.
  pose proof (binary64_Array_sort_spec (Binary64.probabilityR g)) as Hspec.
  destruct (Binary64.Array_sort (Binary64.probabilityR g)) as [sorted indices].
  destruct Hspec as (_ & Hperm & Hlsorted & Hidx).
  assert (Hlidx : length indices = length (Binary64.probabilityR g)).
  { by rewrite Hperm, length_seq. }
  destruct (Binary64.probabilityR g) as [|p0 ps] eqn:E; [done|].
  change (assert_ (negb (length (p0 :: ps) =? 0)%nat)) with (Done tt).
  rewrite bind_Done.
  destruct (binary64_buildOutput_loop sorted indices (Binary64.groupProtNames g)
              (length (p0 :: ps)) Hlsorted Hlidx) with
    (m := length (p0 :: ps)) (k := 0%nat)
    (st := Binary64.mk_bo (replicate (length (p0 :: ps)) [])
                 (replicate (length (p0 :: ps)) 0%float) 0%float)
    as (st' & Hrun & Hids & Hq).
  - intros k i Hk. apply lookup_lt_is_Some_2. rewrite Hlen.
    by destruct (Hidx k i Hk).
  - done.
  - apply length_replicate.
  - apply length_replicate.
  - rewrite Hrun, bind_Done. rewrite Hids, Hq. simpl. done.
Qed.

Lemma binary64_running_mean_lookup (p : list float) :
  ∀ (k : nat) (sum : float) (j : nat) (q : float),
    Binary64.running_mean k sum p !! j = Some q ->
    q = (foldl PrimFloat.add sum (take (S j) p)
         / Binary64.of_int (wrap_int (Z.of_nat (k + j) + 1)))%float.
Proof.
  induction p as [|x p IH]; intros k sum j q Hq; [done|].
  destruct j as [|j].
  - simpl in Hq. injection Hq as <-. simpl. by rewrite Nat.add_0_r.
  - simpl in Hq. apply IH in Hq. rewrite Hq.
    replace (S k + j)%nat with (k + S j)%nat by lia. done.
Qed.

Lemma binary64_length_running_mean (p : list float) (k : nat) (sum : float) :
  length (Binary64.running_mean k sum p) = length p.
Proof.
  revert k sum. induction p as [|x p IH]; intros k sum; simpl; [done|].
  by rewrite IH.
Qed.

(** C4, as the code has it. Over doubles, for an inference result that is
    not empty (with one group of names per posterior error, and no more
    values than an [int] counts), [buildOutput] returns the posterior errors
    of the inference result in the order of the sort, and as the q-value of
    each rank [k] the quotient, by [k + 1], of the sum of the posterior
    errors of the ranks 0 to [k], added in that order, with the rounding of
    each addition and of the division. The posterior errors 0.1, 0.2, 0.3
    give the q-values 0.1, 0.15000000000000002, 0.20000000000000004. *)
Theorem buildOutput_qvalues_binary64 (g : Binary64.GroupPowerBigraph) :
  Binary64.probabilityR g ≠ [] ->
  length (Binary64.groupProtNames g) = length (Binary64.probabilityR g) ->
  (Z.of_nat (length (Binary64.probabilityR g)) <= INT_MAX)%Z ->
  ∃ out : Binary64.fidoOutput,
    Binary64.buildOutput g = Done out ∧
    Binary64.peps out = fst (Binary64.Array_sort (Binary64.probabilityR g)) ∧
    Binary64.peps out ≡ₚ Binary64.probabilityR g ∧
    length (Binary64.qvalues out) = length (Binary64.probabilityR g) ∧
    (∀ (k : nat) (q : float),
       Binary64.qvalues out !! k = Some q ->
       q = (foldl PrimFloat.add 0 (take (S k) (Binary64.peps out))
            / Binary64.of_int (Z.of_nat k + 1))%float) ∧
    (Binary64.peps out = [0.1; 0.2; 0.3]%float ->
     Binary64.qvalues out
       = [0.1; 0.15000000000000002; 0.20000000000000004]%float).
Proof.
  intros Hne Hlen Hint.
  pose proof (binary64_buildOutput_Done g Hne Hlen) as Hrun.
  pose proof (binary64_Array_sort_spec (Binary64.probabilityR g)) as Hspec.
  destruct (Binary64.Array_sort (Binary64.probabilityR g)) as [sorted indices].
  destruct Hspec as (Hperm & _ & Hlsorted & _).
  eexists. split; [exact Hrun|]. simpl.
  split; [done|]. split; [done|].
  split; [by rewrite binary64_length_running_mean|]. split.
  - intros k q Hq.
    assert (Hk : (k < length sorted)%nat).
    { apply lookup_lt_Some in Hq.
      by rewrite binary64_length_running_mean in Hq. }
    apply binary64_running_mean_lookup in Hq. rewrite Hq. simpl.
    rewrite wrap_int_small; [reflexivity|]. unfold INT_MAX in *. lia.
  - intros ->. vm_compute. reflexivity.
Qed.

Lemma buildOutput_qvalues_binary64_witness :
  ∃ out : Binary64.fidoOutput,
    Binary64.buildOutput
      {| Binary64.probabilityR := [0.3; 0.1; 0.2]%float;
         Binary64.groupProtNames := [["C"]; ["A"]; ["B"]]%string |} = Done out ∧
    Binary64.peps out ≡ₚ [0.3; 0.1; 0.2]%float ∧
    Binary64.qvalues out
      = [0.1; 0.15000000000000002; 0.20000000000000004]%float.
Proof.
  destruct (buildOutput_qvalues_binary64
              {| Binary64.probabilityR := [0.3; 0.1; 0.2]%float;
                 Binary64.groupProtNames := [["C"]; ["A"]; ["B"]]%string |})
    as (out & Hrun & Hsort & Hperm & _ & _ & Hex);
    [done|reflexivity|vm_compute; discriminate|].
  exists out. split; [exact Hrun|]. split; [exact Hperm|].
  apply Hex. rewrite Hsort. vm_compute. reflexivity.
Defined.

(** C4 as the specification words it does not hold of the code. The
    posterior errors 0.1, 0.2, 0.3 give the q-values 0.1,
    0.15000000000000002 and 0.20000000000000004: the second and the third
    are not the doubles 0.15 and 0.2. For the posterior errors 0.1, 0.3,
    0.5, 0.7 the q-value of rank 3 is 0.4, and the recurrence
    [(3 * q[2] + p[3]) / 4], evaluated on the q-value of rank 2, is
    0.39999999999999997. *)
Lemma buildOutput_qvalues_not_exact :
  (∃ out : Binary64.fidoOutput,
     Binary64.buildOutput
       {| Binary64.probabilityR := [0.3; 0.1; 0.2]%float;
          Binary64.groupProtNames := [["C"]; ["A"]; ["B"]]%string |} = Done out ∧
     Binary64.peps out = [0.1; 0.2; 0.3]%float ∧
     ∃ q0 q1 q2 : float,
       Binary64.qvalues out = [q0; q1; q2] ∧
       PrimFloat.eqb q0 0.1 = true ∧
       PrimFloat.eqb q1 0.15 = false ∧
       PrimFloat.eqb q2 0.2 = false) ∧
  (∃ out : Binary64.fidoOutput,
     Binary64.buildOutput
       {| Binary64.probabilityR := [0.7; 0.1; 0.5; 0.3]%float;
          Binary64.groupProtNames := [["D"]; ["A"]; ["C"]; ["B"]]%string |}
       = Done out ∧
     Binary64.peps out = [0.1; 0.3; 0.5; 0.7]%float ∧
     ∃ q0 q1 q2 q3 : float,
       Binary64.qvalues out = [q0; q1; q2; q3] ∧
       PrimFloat.eqb q3 0.4 = true ∧
       PrimFloat.eqb q3 ((3 * q2 + 0.7) / 4) = false ∧
       PrimFloat.eqb ((3 * q2 + 0.7) / 4) 0.39999999999999997 = true)%float.
Proof.
  split.
  - eexists. split; [vm_compute; reflexivity|]. split; [reflexivity|].
    eexists _, _, _. split; [reflexivity|]. by vm_compute.
  - eexists. split; [vm_compute; reflexivity|]. split; [reflexivity|].
    eexists _, _, _, _. split; [reflexivity|]. by vm_compute.
Qed.

End Binary64Facts.

(** ** The classification of the proteins *)

Lemma scan_labels_from (peptides : list ScoreHolder) (tp fp : bool) :
  foldl (fun '(tp, fp) peptIt =>
           if negb (label peptIt =? 1)%Z then (tp, true) else (true, fp))
        (tp, fp) peptides
  = (tp || existsb (fun p => (label p =? 1)%Z) peptides,
     fp || existsb (fun p => negb (label p =? 1)%Z) peptides).
Proof.
  revert tp fp. induction peptides as [|p l IH]; intros tp fp; simpl.
  - by rewrite !orb_false_r.
  - destruct (label p =? 1)%Z; simpl; rewrite IH; simpl.
    + by rewrite orb_true_r.
    + by rewrite orb_true_r.
Qed.

Lemma scan_labels_target (peptides : list ScoreHolder) :
  fst (scan_labels peptides) = true ↔ ∃ p, p ∈ peptides ∧ label p = 1%Z.
Proof.
  unfold scan_labels. rewrite scan_labels_from. simpl.
  rewrite existsb_exists. split.
  - intros (p & Hin & Hp). exists p. rewrite list_elem_of_In.
    split; [done|]. by apply Z.eqb_eq.
  - intros (p & Hin & Hp). exists p. rewrite <- list_elem_of_In.
    split; [done|]. by apply Z.eqb_eq.
Qed.

Lemma scan_labels_decoy (peptides : list ScoreHolder) :
  snd (scan_labels peptides) = true ↔ ∃ p, p ∈ peptides ∧ label p ≠ 1%Z.
Proof.
  unfold scan_labels. rewrite scan_labels_from. simpl.
  rewrite existsb_exists. split.
  - intros (p & Hin & Hp). exists p. rewrite list_elem_of_In.
    split; [done|]. apply negb_true_iff in Hp. by apply Z.eqb_neq.
  - intros (p & Hin & Hp). exists p. rewrite <- list_elem_of_In.
    split; [done|]. apply negb_true_iff. by apply Z.eqb_neq.
Qed.

(** The outer loop of [populateTPandFNLists]: a protein is in a list
    afterwards when it was before, or when one of the entries visited is its
    entry and the flag of the list was set for it. *)
Lemma populateTPandFNLists_loop (entries : list (string * list ScoreHolder)) :
  ∀ point : gridPoint.t,
    let point' := foldl populateTPandFNLists_step point entries in
    ∀ prot : string,
      (prot ∈ gridPoint.truePositives point' ↔
       prot ∈ gridPoint.truePositives point ∨
       ∃ peptides, (prot, peptides) ∈ entries ∧ fst (scan_labels peptides) = true) ∧
      (prot ∈ gridPoint.falsePositives point' ↔
       prot ∈ gridPoint.falsePositives point ∨
       ∃ peptides, (prot, peptides) ∈ entries ∧ snd (scan_labels peptides) = true).
Proof.
  induction entries as [|[name peptides] entries IH]; intros point; simpl.
  - intros prot. split; (split; [by left|]).
    + intros [H|(? & H & _)]; [done|]. by apply elem_of_nil in H.
    + intros [H|(? & H & _)]; [done|]. by apply elem_of_nil in H.
  - intros prot.
    destruct (IH (populateTPandFNLists_step point (name, peptides)) prot)
      as [Htp Hfp].
    rewrite Htp, Hfp. clear Htp Hfp IH.
    unfold populateTPandFNLists_step. simpl.
    destruct (scan_labels peptides) as [tp fp] eqn:E. simpl.
    split.
    + split.
      * intros [H|(ps & Hin & Hps)].
        -- destruct tp; [|by left].
           apply elem_of_app in H as [H|H]; [by left|].
           apply list_elem_of_singleton in H as ->. right. exists peptides.
           split; [by left|]. by rewrite E.
        -- right. exists ps. split; [by right|done].
      * intros [H|(ps & Hin & Hps)].
        -- left. destruct tp; [|done]. apply elem_of_app. by left.
        -- apply elem_of_cons in Hin as [Heq|Hin].
           ++ injection Heq as -> ->. rewrite E in Hps. simpl in Hps. subst tp.
              left. apply elem_of_app. right. by apply list_elem_of_singleton.
           ++ right. by exists ps.
    + split.
      * intros [H|(ps & Hin & Hps)].
        -- destruct fp; [|by left].
           apply elem_of_app in H as [H|H]; [by left|].
           apply list_elem_of_singleton in H as ->. right. exists peptides.
           split; [by left|]. by rewrite E.
        -- right. exists ps. split; [by right|done].
      * intros [H|(ps & Hin & Hps)].
        -- left. destruct fp; [|done]. apply elem_of_app. by left.
        -- apply elem_of_cons in Hin as [Heq|Hin].
           ++ injection Heq as -> ->. rewrite E in Hps. simpl in Hps. subst fp.
              left. apply elem_of_app. right. by apply list_elem_of_singleton.
           ++ right. by exists ps.
Qed.

(** C7. Called on a point whose two lists are empty, [populateTPandFNLists]
    puts a protein of the table in [truePositives] exactly when one of its
    peptides has the label 1 (target), and in [falsePositives] exactly when
    one of its peptides has another label (decoy); a protein that is not in
    the table is in neither list, and a protein with a target and a decoy
    peptide is in both. *)
Theorem populateTPandFNLists_classifies (point : gridPoint.t)
    (output : fidoOutput) (toBeTested : ProteinProbEstimator) :
  gridPoint.truePositives point = [] ->
  gridPoint.falsePositives point = [] ->
  ∃ point' : gridPoint.t,
    populateTPandFNLists point output toBeTested = Done point' ∧
    (∀ (prot : string) (peptides : list ScoreHolder),
       proteinsToPeptides toBeTested !! prot = Some peptides ->
       (prot ∈ gridPoint.truePositives point' ↔
        ∃ p, p ∈ peptides ∧ label p = 1%Z) ∧
       (prot ∈ gridPoint.falsePositives point' ↔
        ∃ p, p ∈ peptides ∧ label p ≠ 1%Z)) ∧
    (∀ prot : string,
       proteinsToPeptides toBeTested !! prot = None ->
       (prot ∉ gridPoint.truePositives point') ∧
       (prot ∉ gridPoint.falsePositives point')) ∧
    (∀ (prot : string) (target decoy : ScoreHolder),
       proteinsToPeptides toBeTested !! prot = Some [target; decoy] ->
       label target = 1%Z -> label decoy ≠ 1%Z ->
       prot ∈ gridPoint.truePositives point' ∧
       prot ∈ gridPoint.falsePositives point').
Proof.
  intros Htp Hfp. unfold populateTPandFNLists. rewrite Htp, Hfp. simpl.
  eexists. split; [reflexivity|].
  pose proof (populateTPandFNLists_loop
                (entries_in_order (proteinsToPeptides toBeTested)) point) as Hloop.
  simpl in Hloop.
  assert (Hcls : ∀ (prot : string) (peptides : list ScoreHolder),
       proteinsToPeptides toBeTested !! prot = Some peptides ->
       (prot ∈ gridPoint.truePositives
          (foldl populateTPandFNLists_step point
             (entries_in_order (proteinsToPeptides toBeTested))) ↔
        ∃ p, p ∈ peptides ∧ label p = 1%Z) ∧
       (prot ∈ gridPoint.falsePositives
          (foldl populateTPandFNLists_step point
             (entries_in_order (proteinsToPeptides toBeTested))) ↔
        ∃ p, p ∈ peptides ∧ label p ≠ 1%Z)).
  { intros prot peptides Hprot. destruct (Hloop prot) as [H1 H2].
    rewrite H1, H2, Htp, Hfp. clear H1 H2.
    rewrite <- scan_labels_target, <- scan_labels_decoy.
    split; split.
    - intros [H|(ps & Hin & Hps)]; [by apply elem_of_nil in H|].
      apply elem_of_entries_in_order in Hin. congruence.
    - intros H. right. exists peptides.
      split; [by apply elem_of_entries_in_order|done].
    - intros [H|(ps & Hin & Hps)]; [by apply elem_of_nil in H|].
      apply elem_of_entries_in_order in Hin. congruence.
    - intros H. right. exists peptides.
      split; [by apply elem_of_entries_in_order|done]. }
  split; [exact Hcls|]. split.
  - intros prot Hprot. destruct (Hloop prot) as [H1 H2].
    rewrite H1, H2, Htp, Hfp. clear H1 H2.
    split; intros [H|(ps & Hin & _)];
      try (by apply elem_of_nil in H);
      apply elem_of_entries_in_order in Hin; congruence.
  - intros prot target decoy Hprot Ht Hd.
    destruct (Hcls prot _ Hprot) as [H1 H2]. split.
    + apply H1. exists target. split; [by left|done].
    + apply H2. exists decoy. split; [by right; left|done].
Qed.

Lemma populateTPandFNLists_classifies_witness :
  let est := snd (initialize target_and_decoy (new_ProteinProbEstimator (-1) (-1))) in
  ∃ point' : gridPoint.t,
    populateTPandFNLists (gridPoint.make 0.01 0) (mk_fidoOutput [] [] []) est
      = Done point' ∧
    "P"%string ∈ gridPoint.truePositives point' ∧
    "P"%string ∈ gridPoint.falsePositives point'.
Proof.
  intros est.
  destruct (populateTPandFNLists_classifies (gridPoint.make 0.01 0)
              (mk_fidoOutput [] [] []) est eq_refl eq_refl)
    as (point' & Hrun & _ & _ & Hboth).
  exists point'. split; [exact Hrun|].
  eapply Hboth.
  - vm_compute. reflexivity.
  - reflexivity.
  - discriminate.
Defined.

(** ** The two loops of the grid search *)

(** The fuel of [for_fuel] is enough: with it the loop ends because its
    guard fails, and more fuel gives the same values. *)
Lemma Qfloor_minus_one (q : Q) : (Qfloor (q - 1) <= Qfloor q - 1)%Z.
Proof.
  assert (H : inject_Z (Qfloor (q - 1) + 1) <= q).
  { rewrite inject_Z_plus. pose proof (Qfloor_le (q - 1)) as H.
    change (inject_Z 1) with 1. lra. }
  apply Qfloor_resp_le in H. rewrite Qfloor_Z in H. lia.
Qed.

Lemma for_fuel_next (step x upper : Q) :
  0 < step -> x <= upper ->
  (S (for_fuel step (x + step) upper) <= for_fuel step x upper)%nat.
Proof.
  intros Hstep Hx. unfold for_fuel.
  assert (Heq : (upper - (x + step)) / step == (upper - x) / step - 1).
  { field. lra. }
  rewrite Heq.
  pose proof (Qfloor_minus_one ((upper - x) / step)) as Hm.
  assert (H0 : (0 <= Qfloor ((upper - x) / step))%Z).
  { change 0%Z with (Qfloor 0). apply Qfloor_resp_le.
    apply Qle_shift_div_l; [done|]. lra. }
  lia.
Qed.

Lemma for_fuel_zero (step x upper : Q) :
  0 < step -> for_fuel step x upper = 0%nat -> Qle_bool x upper = false.
Proof.
  intros Hstep H. destruct (Qle_bool x upper) eqn:E; [|done].
  apply Qle_bool_iff in E. unfold for_fuel in H.
  assert (H0 : (0 <= Qfloor ((upper - x) / step))%Z).
  { change 0%Z with (Qfloor 0). apply Qfloor_resp_le.
    apply Qle_shift_div_l; [done|]. lra. }
  lia.
Qed.

Lemma for_values_more_fuel (step upper : Q) :
  0 < step ->
  ∀ (n : nat) (x : Q),
    (for_fuel step x upper <= n)%nat ->
    for_values (S n) step x upper = for_values n step x upper.
Proof.
  intros Hstep. induction n as [|n IH]; intros x Hn.
  - simpl. rewrite (for_fuel_zero step x upper Hstep); [done|lia].
  - change (for_values (S (S n)) step x upper)
      with (if Qle_bool x upper
            then x :: for_values (S n) step (x + step) upper else []).
    change (for_values (S n) step x upper)
      with (if Qle_bool x upper
            then x :: for_values n step (x + step) upper else []).
    destruct (Qle_bool x upper) eqn:E; [|done].
    rewrite IH; [done|].
    apply Qle_bool_iff in E.
    pose proof (for_fuel_next step x upper Hstep E). lia.
Qed.

Lemma for_values_complete (step lower upper : Q) (n : nat) :
  0 < step -> (for_fuel step lower upper <= n)%nat ->
  for_values n step lower upper
    = for_values (for_fuel step lower upper) step lower upper.
Proof.
  intros Hstep. induction 1 as [|n Hn IH]; [done|].
  rewrite for_values_more_fuel; done.
Qed.

Lemma iterate_row {A B S : Type} (f : A -> B -> S -> outcome S) (a : A)
    (bs : list B) (s : S) :
  iterate (fun c => f (fst c) (snd c)) (b ← bs; [(a, b)]) s
    = iterate (fun b => f a b) bs s.
Proof.
  revert s. induction bs as [|b bs IH]; intros s; [done|].
  cbn. destruct (f a b s) as [s'|why]; cbn; [apply IH|done].
Qed.

Lemma iterate_nested {A B S : Type} (f : A -> B -> S -> outcome S)
    (xs : list A) (bs : list B) (s : S) :
  iterate (fun a => iterate (fun b => f a b) bs) xs s
    = iterate (fun c => f (fst c) (snd c)) (a ← xs; b ← bs; [(a, b)]) s.
Proof.
  revert s. induction xs as [|a xs IH]; intros s; [done|].
  cbn [iterate]. 
  change ((a :: xs) ≫= (fun a => b ← bs; [(a, b)]))
    with ((b ← bs; [(a, b)]) ++ (xs ≫= (fun a => b ← bs; [(a, b)]))).
  rewrite iterate_app, iterate_row.
  destruct (iterate (fun b => f a b) bs s) as [s'|why]; cbn; [apply IH|done].
Qed.

(** A computation that is done went through each of its steps. *)
Tactic Notation "bind_inv" hyp(H) "as" simple_intropattern(x) ident(Hx) :=
  match type of H with
  | (?m ≫= _) = Done _ =>
      destruct m as [x|?] eqn:Hx;
      [rewrite bind_Done in H|rewrite bind_Abort in H; discriminate H]
  end.

Section GridFacts.
Variable ext : Collaborators.

Lemma gridSearch_loops_cells (this : ProteinProbEstimator) :
  gridSearch_loops ext this
    = gridSearch_upto ext (length (gridCells this)) this.
Proof.
  unfold gridSearch_loops, gridSearch_upto, gridCells.
  rewrite firstn_all.
  apply (iterate_nested (gridSearch_cell ext 0.15)).
Qed.

Lemma populateTPandFNLists_step_frame (point : gridPoint.t)
    (e : string * list ScoreHolder) :
  gridPoint.alpha (populateTPandFNLists_step point e) = gridPoint.alpha point ∧
  gridPoint.beta (populateTPandFNLists_step point e) = gridPoint.beta point.
Proof.
  unfold populateTPandFNLists_step. by destruct (scan_labels (snd e)).
Qed.

Lemma populateTPandFNLists_frame (point point' : gridPoint.t)
    (output : fidoOutput) (e : ProteinProbEstimator) :
  populateTPandFNLists point output e = Done point' ->
  gridPoint.alpha point' = gridPoint.alpha point ∧
  gridPoint.beta point' = gridPoint.beta point.
Proof.
  unfold populateTPandFNLists. intros H.
  bind_inv H as ? H1. bind_inv H as ? H2. injection H as <-. clear H1 H2.
  generalize (entries_in_order (proteinsToPeptides e)). intros l.
  revert point. induction l as [|x l IH]; intros point; [done|].
  simpl. destruct (IH (populateTPandFNLists_step point x)) as [-> ->].
  apply populateTPandFNLists_step_frame.
Qed.

Lemma calculateProteinProb_tail_frame (this this' : ProteinProbEstimator)
    (output : fidoOutput) :
  calculateProteinProb_tail ext this = Done (output, this') ->
  alpha this' = alpha this ∧ beta this' = beta this ∧
  buildOutput (fido ext (alpha this) (beta this) (gamma this)
                    (peptideScores this)) = Done output.
Proof.
  unfold calculateProteinProb_tail. intros H.
  bind_inv H as ? H1. bind_inv H as ? H2. bind_inv H as out H3.
  by injection H as <- <-.
Qed.

(** A cell whose objective was computed carries its coordinates, and the
    estimator carries them too. *)
Lemma calculateObjectiveFn_Done (lambda a b : Q)
    (this this' : ProteinProbEstimator) (point : gridPoint.t) :
  calculateObjectiveFn ext lambda (gridPoint.make a b) this = Done (point, this') ->
  gridPoint.alpha point = Some a ∧ gridPoint.beta point = Some b ∧
  alpha this' = a ∧ beta this' = b.
Proof.
  unfold calculateObjectiveFn. cbn [gridPoint.alpha gridPoint.beta gridPoint.make].
  intros H. bind_inv H as ? H1. bind_inv H as ? H2.
  bind_inv H as [output e] H3.
  apply calculateProteinProb_tail_frame in H3 as (Ha & Hb & _).
  bind_inv H as point1 H4.
  apply populateTPandFNLists_frame in H4 as (Hpa & Hpb).
  destruct (calculateFDRs ext output _ _) as [est emp].
  destruct (calculateRoc ext output _ _) as [fps tps].
  injection H as <- <-. simpl. done.
Qed.

(** Whatever the objective values are, a cell that was evaluated is
    [bestSoFar] afterwards, and its coordinates are those of the
    estimator. *)
Lemma gridSearch_cell_Done (lambda a b : Q)
    (st st' : ProteinProbEstimator * gridPoint.t) :
  gridSearch_cell ext lambda a b st = Done st' ->
  gridPoint.alpha (snd st') = Some a ∧ gridPoint.beta (snd st') = Some b ∧
  alpha (fst st') = a ∧ beta (fst st') = b.
Proof.
  unfold gridSearch_cell. destruct st as [this bestSoFar]. intros H.
  bind_inv H as [current e] H1. bind_inv H as ? H2.
  injection H as <-. simpl.
  by apply calculateObjectiveFn_Done in H1.
Qed.

(** The search, stopped after any cell, holds that cell as [bestSoFar]. *)
Lemma gridSearch_upto_last (n : nat) (this e : ProteinProbEstimator)
    (best : gridPoint.t) (c : Q * Q) :
  last (take n (gridCells this)) = Some c ->
  gridSearch_upto ext n this = Done (e, best) ->
  gridPoint.alpha best = Some (fst c) ∧ gridPoint.beta best = Some (snd c) ∧
  alpha e = fst c ∧ beta e = snd c.
Proof.
  unfold gridSearch_upto. intros Hlast.
  apply last_Some in Hlast as [cs Hcs]. rewrite Hcs, iterate_app.
  intros H. bind_inv H as st1 H1. cbn [iterate] in H. bind_inv H as st2 H2.
  injection H as ->.
  by apply gridSearch_cell_Done in H2.
Qed.

End GridFacts.

(** The search as a whole: when it returns, the estimator carries the
    coordinates of the cell that the loops reached last, whatever the
    objective values were. *)
Lemma gridSearchAlphaBeta_last_cell (ext : Collaborators)
    (this e : ProteinProbEstimator) (c : Q * Q) :
  last (gridCells this) = Some c ->
  gridSearchAlphaBeta ext this = Done e ->
  alpha e = fst c ∧ beta e = snd c.
Proof.
  intros Hlast. unfold gridSearchAlphaBeta. rewrite gridSearch_loops_cells.
  intros H. bind_inv H as [e' best] H1. injection H as ->.
  eapply gridSearch_upto_last in H1 as (_ & _ & Ha & Hb); [done|].
  by rewrite firstn_all.
Qed.

(** An empty inference result aborts the probability calculation, and with
    it the cell of the grid search that asked for it. *)
Lemma calculateProteinProb_tail_empty (ext : Collaborators)
    (this : ProteinProbEstimator) :
  probabilityR (fido ext (alpha this) (beta this) (gamma this)
                     (peptideScores this)) = [] ->
  calculateProteinProb_tail ext this = Abort AssertionFailed.
Proof.
  intros H. unfold calculateProteinProb_tail.
  destruct (Qneq_bool (alpha this) (-1)); [|done].
  destruct (Qneq_bool (beta this) (-1)); [|done].
  cbn [assert_]. rewrite !bind_Done.
  destruct (fido ext _ _ _ _) as [ps names]. simpl in H. subst ps.
  by rewrite buildOutput_nil.
Qed.

(** C1 at the failing input. Nothing is pinned. With an objective that falls
    from the first cell (0.01, 0) to the second (0.01, 0.05), [bestSoFar] is
    the first cell after one cell and the second, whose objective is less,
    after two. With an objective that is the same everywhere, [bestSoFar] is
    the later of the two cells as well. *)
Theorem gridSearch_keeps_latest_cell :
  let this := session (-1) (-1) in
  (∃ (e1 e2 : ProteinProbEstimator) (best1 best2 : gridPoint.t),
     gridSearch_upto (stub falling) 1 this = Done (e1, best1) ∧
     gridSearch_upto (stub falling) 2 this = Done (e2, best2) ∧
     gridPoint.beta best1 = Some 0.0 ∧
     gridPoint.beta best2 = Some (0.0 + 0.05) ∧
     gridPoint.objectiveFnValue best2 < gridPoint.objectiveFnValue best1) ∧
  (∃ (e1 e2 : ProteinProbEstimator) (best1 best2 : gridPoint.t),
     gridSearch_upto (stub (constant 1)) 1 this = Done (e1, best1) ∧
     gridSearch_upto (stub (constant 1)) 2 this = Done (e2, best2) ∧
     gridPoint.beta best1 = Some 0.0 ∧
     gridPoint.beta best2 = Some (0.0 + 0.05) ∧
     gridPoint.objectiveFnValue best2 == gridPoint.objectiveFnValue best1).
Proof.
  intros this. split.
  - set (r1 := gridSearch_upto (stub falling) 1 this).
    set (r2 := gridSearch_upto (stub falling) 2 this).
    vm_compute in r1, r2. subst r1 r2.
    eexists _, _, _, _. split; [reflexivity|]. split; [reflexivity|].
    repeat split; vm_compute; reflexivity.
  - set (r1 := gridSearch_upto (stub (constant 1)) 1 this).
    set (r2 := gridSearch_upto (stub (constant 1)) 2 this).
    vm_compute in r1, r2. subst r1 r2.
    eexists _, _, _, _. split; [reflexivity|]. split; [reflexivity|].
    repeat split; vm_compute; reflexivity.
Qed.

Lemma Qneq_bool_true (x y : Q) : Qneq_bool x y = true ↔ ¬ x == y.
Proof.
  unfold Qneq_bool. rewrite negb_true_iff. split.
  - intros H Heq. apply Qeq_bool_iff in Heq. congruence.
  - intros H. destruct (Qeq_bool x y) eqn:E; [|done].
    apply Qeq_bool_iff in E. done.
Qed.

(** The objective that the test double [stub falling] gives a cell. *)
Lemma objective_at_falling (this : ProteinProbEstimator) (a b : Q) :
  ¬ a == -1 -> ¬ b == -1 ->
  ∃ v : Q, objective_at (stub falling) this a b = Done v ∧
           v == (1 - 0.15) * (2 - a - b).
Proof.
  intros Ha Hb. apply Qneq_bool_true in Ha, Hb.
  unfold objective_at, calculateObjectiveFn.
  cbn [gridPoint.alpha gridPoint.beta gridPoint.make].
  rewrite Ha, Hb. cbn [assert_]. rewrite !bind_Done.
  unfold calculateProteinProb_tail. cbn [alpha beta set_alpha_beta].
  rewrite Ha, Hb. cbn [assert_]. rewrite !bind_Done.
  cbn [fido stub].
  change (buildOutput {| probabilityR := [falling a b];
                         groupProtNames := [["P"%string]] |})
    with (Done (mk_fidoOutput [falling a b] [["P"%string]]
                  [(0 + falling a b) / inject_Z (wrap_int (Z.of_nat 0 + 1))])).
  rewrite !bind_Done.
  unfold populateTPandFNLists.
  cbn [gridPoint.truePositives gridPoint.falsePositives gridPoint.make
       length Nat.eqb assert_].
  rewrite !bind_Done.
  cbn [calculateFDRs calculateMSE_FDR calculateRoc calculateROC50 stub qvalues hd].
  rewrite bind_Done. cbn [gridPoint.objectiveFnValue gridPoint.set_objectiveFnValue].
  eexists. split; [reflexivity|].
  unfold falling. change (inject_Z (wrap_int (Z.of_nat 0 + 1))) with 1. field.
Qed.

(** C2 at the failing input. Nothing is pinned, and the objective falls
    along every row and from row to row: the first cell, (0.01, 0), has the
    greatest objective of all cells. When the search returns, alpha and
    beta are not those of the first cell; the objective of the cell they
    name is less than that of the first cell, and the final calculation
    runs the engine with them. *)
Theorem gridSearchAlphaBeta_no_write_back :
  let this := session (-1) (-1) in
  ∃ (e : ProteinProbEstimator) (v_first v_last : Q),
    gridSearchAlphaBeta (stub falling) this = Done e ∧
    head (gridCells this) = Some (0.01, 0.0) ∧
    objective_at (stub falling) this 0.01 0.0 = Done v_first ∧
    (∀ a b v : Q,
       0.01 <= a -> 0.0 <= b -> ¬ (a == 0.01 ∧ b == 0.0) ->
       objective_at (stub falling) this a b = Done v -> v < v_first) ∧
    objective_at (stub falling) this (alpha e) (beta e) = Done v_last ∧
    v_last < v_first ∧
    ∃ out : fidoOutput,
      calculateProteinProb (stub falling) true this = Done (out, e) ∧
      buildOutput (fido (stub falling) (alpha e) (beta e) (gamma e)
                        (peptideScores e)) = Done out.
Proof.
  intros this.
  set (r := gridSearchAlphaBeta (stub falling) this).
  vm_compute in r. subst r.
  eexists _, _, _. split; [reflexivity|].
  split; [vm_compute; reflexivity|].
  set (o1 := objective_at (stub falling) this 0.01 0.0).
  vm_compute in o1. subst o1.
  split; [reflexivity|]. split.
  { intros a b v Ha Hb Hne Hv.
    destruct (objective_at_falling this a b) as (v' & Hv' & Heq).
    - intros H. rewrite H in Ha. vm_compute in Ha. by apply Ha.
    - intros H. rewrite H in Hb. vm_compute in Hb. by apply Hb.
    - rewrite Hv in Hv'. injection Hv' as <-. rewrite Heq.
      assert (Hab : 0.01 < a ∨ 0.0 < b).
      { destruct (Qlt_le_dec 0.01 a) as [H|H]; [by left|].
        destruct (Qlt_le_dec 0.0 b) as [H'|H']; [by right|].
        exfalso. apply Hne. split; lra. }
      destruct Hab; lra. }
  cbn [alpha beta].
  set (o2 := objective_at (stub falling) this _ _).
  set (r' := calculateProteinProb (stub falling) true this).
  vm_compute in o2, r'. subst o2 r'.
  split; [reflexivity|]. split; [vm_compute; reflexivity|].
  eexists. split; [reflexivity|]. vm_compute. reflexivity.
Qed.

(** C3 at the failing input. Beta is pinned to 0.3 and alpha is not set. The
    second test overwrites the bounds of alpha, not those of beta: the
    bounds are those of a search with alpha pinned to 0.3, the loop over
    alpha has the one value 0.3, the value of beta, where a search with
    nothing pinned starts it at 0.01 and goes on to 0.01 + 0.05, and the
    bounds of the loop over beta are those of a search with nothing
    pinned. *)
Theorem gridBounds_beta_pinned :
  let this := session (-1) 0.3 in
  alpha this = -1 ∧ beta this = 0.3 ∧
  gridBounds this = (0.3, 0.3, 0.0, 0.80) ∧
  gridBounds this = gridBounds (session 0.3 (-1)) ∧
  grid_a this = [0.3] ∧
  gridBounds (session (-1) (-1)) = (0.01, 0.76, 0.0, 0.80) ∧
  take 2 (grid_a (session (-1) (-1))) = [0.01; 0.01 + 0.05].
Proof.
  intros this. split; [reflexivity|]. split; [reflexivity|].
  split; [reflexivity|]. split; [reflexivity|].
  split; [vm_compute; reflexivity|].
  split; [reflexivity|].
  unfold grid_a. cbn [gridBounds]. vm_compute. reflexivity.
Qed.

(** With alpha pinned and beta not set, the first test collapses the loop
    over alpha to the one value of alpha and leaves the bounds of the loop
    over beta as they are. *)
Lemma gridSearch_alpha_pinned :
  let this := session 0.1 (-1) in
  gridBounds this = (0.1, 0.1, 0.0, 0.80) ∧
  grid_a this = [0.1].
Proof.
  intros this. split; [reflexivity|]. vm_compute. reflexivity.
Qed.

(** The seed is above every objective that is not positive: compared with
    it, such a cell is not greater. *)
Lemma gt_seed_false (current : gridPoint.t) :
  ¬ gridPoint.objectiveFnValue current == -1 ->
  gridPoint.objectiveFnValue current <= DBL_MIN ->
  gridPoint.gt current bestSoFar_seed = Done false.
Proof.
  intros Hne Hle. unfold gridPoint.gt, Qneq_bool, Qgt_bool.
  destruct (Qeq_bool (gridPoint.objectiveFnValue current) (-1)) eqn:E.
  { apply Qeq_bool_iff in E. done. }
  cbn [negb assert_]. rewrite bind_Done.
  change (gridPoint.objectiveFnValue bestSoFar_seed) with DBL_MIN.
  replace (Qeq_bool DBL_MIN (-1)) with false by (vm_compute; reflexivity).
  cbn [negb assert_]. rewrite bind_Done.
  apply Qle_bool_iff in Hle. rewrite Hle. reflexivity.
Qed.

(** C8 at the failing input. The seed of [bestSoFar] is the least positive
    normal double, which is above 0 and above the least double. For a first
    cell whose objective is 0, the comparison [current > bestSoFar] is
    false. *)
Theorem gridSearch_seed_not_least :
  let this := session (-1) (-1) in
  gridPoint.objectiveFnValue bestSoFar_seed = DBL_MIN ∧
  0 < DBL_MIN ∧ - DBL_MAX < DBL_MIN ∧
  ∃ (current : gridPoint.t) (e : ProteinProbEstimator),
    calculateObjectiveFn (stub (constant 0)) 0.15 (gridPoint.make 0.01 0.0) this
      = Done (current, e) ∧
    gridPoint.objectiveFnValue current == 0 ∧
    gridPoint.gt current bestSoFar_seed = Done false.
Proof.
  intros this. split; [reflexivity|].
  split; [vm_compute; reflexivity|]. split; [vm_compute; reflexivity|].
  set (r := calculateObjectiveFn _ _ _ _).
  vm_compute in r. subst r.
  eexists _, _. split; [reflexivity|].
  split; vm_compute; reflexivity.
Qed.

(** The ordered peptide list of a protein, as [initialize] builds it, holds
    a peptide once per occurrence in the input, in the order of the input. *)
Lemma populateProteinsToPeptidesTable_keeps_duplicates :
  let k := {| label := 1;
              pPSM := {| peptide := "K.ELVISK.L";
                         proteinIds := {["P"%string]} |} |} in
  proteinsToPeptides
    (populateProteinsToPeptidesTable {| scores := [k; k] |}
       (new_ProteinProbEstimator (-1) (-1))) !! "P"%string
  = Some [k; k].
Proof. vm_compute. reflexivity. Qed.

(** * Further properties of the code *)

(** ** The association index and the table of the estimator *)

Local Open Scope Z_scope.


Lemma count_up_lookup (k j : string) (m : gmap string Z) :
  IntraSetRelation.count_up k m !! j
  = if decide (k = j) then Some (IntraSetRelation.counted (m !! k)) else m !! j.
Proof.
  destruct (decide (k = j)) as [->|Hne].
  - apply count_up_eq.
  - by apply count_up_ne.
Qed.

Lemma registerRel_numProteins_lookup (pep : string) (prot : gset string)
    (r : IntraSetRelation.t) (p : string) :
  IntraSetRelation.numProteins (IntraSetRelation.registerRel pep prot r) !! p
  = if decide (p ∈ prot)
    then Some (IntraSetRelation.counted (IntraSetRelation.numProteins r !! p))
    else IntraSetRelation.numProteins r !! p.
Proof.
  destruct (decide (p ∈ prot)) as [Hp|Hp].
  - by destruct (registerRel_in pep prot r p Hp).
  - by destruct (registerRel_out pep prot r p Hp).
Qed.

Lemma registerRel_prot2pep_lookup (pep : string) (prot : gset string)
    (r : IntraSetRelation.t) (p : string) :
  IntraSetRelation.prot2pep (IntraSetRelation.registerRel pep prot r) !! p
  = if decide (p ∈ prot)
    then Some ({[pep]} ∪ default ∅ (IntraSetRelation.prot2pep r !! p))
    else IntraSetRelation.prot2pep r !! p.
Proof.
  destruct (decide (p ∈ prot)) as [Hp|Hp].
  - by destruct (registerRel_in pep prot r p Hp).
  - by destruct (registerRel_out pep prot r p Hp).
Qed.

Lemma IntraSetRelation_eq (r1 r2 : IntraSetRelation.t) :
  IntraSetRelation.numProteins r1 = IntraSetRelation.numProteins r2 ->
  IntraSetRelation.numPeptides r1 = IntraSetRelation.numPeptides r2 ->
  IntraSetRelation.prot2pep r1 = IntraSetRelation.prot2pep r2 ->
  r1 = r2.
Proof. destruct r1, r2. simpl. by intros -> -> ->. Qed.

(** X1. [registerRel] adds the peptide to the set of every listed protein
    and keeps what the set held; a protein that is not listed keeps its set
    and its count, another peptide keeps its count, and with an empty
    protein set only the count of the peptide changes. *)
Theorem registerRel_effect (pep : string) (prot : gset string)
    (r : IntraSetRelation.t) :
  let r' := IntraSetRelation.registerRel pep prot r in
  (∀ p : string, p ∈ prot ->
     IntraSetRelation.prot2pep r' !! p
       = Some ({[pep]} ∪ default ∅ (IntraSetRelation.prot2pep r !! p))) ∧
  (∀ p : string, p ∉ prot ->
     IntraSetRelation.prot2pep r' !! p = IntraSetRelation.prot2pep r !! p ∧
     IntraSetRelation.numProteins r' !! p = IntraSetRelation.numProteins r !! p) ∧
  (∀ q : string, q ≠ pep ->
     IntraSetRelation.numPeptides r' !! q = IntraSetRelation.numPeptides r !! q) ∧
  (prot = ∅ ->
     IntraSetRelation.prot2pep r' = IntraSetRelation.prot2pep r ∧
     IntraSetRelation.numProteins r' = IntraSetRelation.numProteins r).
Proof.
  intros r'. split; [|split; [|split]].
  - intros p Hp. by destruct (registerRel_in pep prot r p Hp).
  - intros p Hp. by destruct (registerRel_out pep prot r p Hp).
  - intros q Hq. subst r'. rewrite registerRel_numPeptides.
    by apply count_up_ne.
  - intros ->. split; apply map_eq; intros p;
      by destruct (registerRel_out pep ∅ r p (not_elem_of_empty p)).
Qed.

Lemma registerRel_effect_witness :
  let r' := IntraSetRelation.registerRel "K.ELVISK.L" {["P1"%string]}
              (IntraSetRelation.registerRel "K.AAK.L" {["P1"%string; "P2"%string]}
                 IntraSetRelation.empty) in
  IntraSetRelation.prot2pep r' !! "P1"%string
    = Some {["K.ELVISK.L"%string; "K.AAK.L"%string]} ∧
  IntraSetRelation.prot2pep r' !! "P2"%string = Some {["K.AAK.L"%string]}.
Proof.
  intros r'. subst r'.
  destruct (registerRel_effect "K.ELVISK.L" {["P1"%string]}
              (IntraSetRelation.registerRel "K.AAK.L" {["P1"%string; "P2"%string]}
                 IntraSetRelation.empty)) as (Hin & Hout & _).
  split.
  - rewrite (Hin "P1"%string); [|by apply elem_of_singleton].
    vm_compute. reflexivity.
  - destruct (Hout "P2"%string) as [-> _].
    + rewrite elem_of_singleton. discriminate.
    + vm_compute. reflexivity.
Defined.

(** X2. Two registrations give the same index in either order. *)
Theorem registerRel_comm (pep1 pep2 : string) (prot1 prot2 : gset string)
    (r : IntraSetRelation.t) :
  IntraSetRelation.registerRel pep1 prot1 (IntraSetRelation.registerRel pep2 prot2 r)
  = IntraSetRelation.registerRel pep2 prot2 (IntraSetRelation.registerRel pep1 prot1 r).
Proof.
  apply IntraSetRelation_eq.
  - apply map_eq. intros p. rewrite !registerRel_numProteins_lookup.
    destruct (decide (p ∈ prot1)), (decide (p ∈ prot2)); done.
  - rewrite !registerRel_numPeptides.
    destruct (decide (pep1 = pep2)) as [->|Hne]; [done|].
    apply map_eq. intros j. rewrite !count_up_lookup.
    repeat case_decide; congruence.
  - apply map_eq. intros p. rewrite !registerRel_prot2pep_lookup.
    destruct (decide (p ∈ prot1)), (decide (p ∈ prot2)); simpl; try done.
    f_equal. rewrite !(assoc_L (∪)). f_equal. apply (comm_L (∪)).
Qed.

(** X3. The empty index is consistent, and [registerRel] keeps an index
    consistent: a protein has a count exactly when it has a peptide set that
    is not empty, and every peptide of a set has a count. *)
Theorem registerRel_consistent (pep : string) (prot : gset string)
    (r : IntraSetRelation.t) :
  index_consistent IntraSetRelation.empty ∧
  (index_consistent r ->
   index_consistent (IntraSetRelation.registerRel pep prot r)).
Proof.
  split.
  - split.
    + intros p. simpl. rewrite lookup_empty. split.
      * by intros [? ?].
      * by intros (s & ? & _).
    + intros p s q. simpl. by rewrite lookup_empty.
  - intros [Hcount Hpep]. split.
    + intros p. rewrite registerRel_numProteins_lookup, registerRel_prot2pep_lookup.
      destruct (decide (p ∈ prot)); [|apply Hcount].
      split; [|by eauto]. intros _. eexists. split; [done|].
      intros Hempty.
      assert (pep ∈ ({[pep]} ∪ default ∅ (IntraSetRelation.prot2pep r !! p)
                      : gset string)) as Hin
        by (by apply elem_of_union_l, elem_of_singleton).
      rewrite Hempty in Hin. by apply not_elem_of_empty in Hin.
    + intros p s q. rewrite registerRel_prot2pep_lookup, registerRel_numPeptides,
        count_up_lookup.
      destruct (decide (pep = q)) as [->|Hne]; [by eauto|].
      destruct (decide (p ∈ prot)).
      * intros [= <-] Hq. apply elem_of_union in Hq as [Hq|Hq].
        { apply elem_of_singleton in Hq. congruence. }
        destruct (IntraSetRelation.prot2pep r !! p) as [s|] eqn:E; simpl in Hq.
        -- by apply (Hpep p s q).
        -- by apply not_elem_of_empty in Hq.
      * apply Hpep.
Qed.

Lemma registerRel_consistent_witness :
  index_consistent
    (IntraSetRelation.registerRel "K.ELVISK.L" {["P1"%string; "P2"%string]}
       IntraSetRelation.empty).
Proof.
  destruct (registerRel_consistent "K.ELVISK.L" {["P1"%string; "P2"%string]}
              IntraSetRelation.empty) as [Hempty Hstep].
  apply Hstep. exact Hempty.
Defined.

Lemma pep_sites_step (st : Z * IntraSetRelation.t) (x p : string) :
  pep_sites (snd (IntraSetRelation.getPepSites_step st x)) p = pep_sites (snd st) p.
Proof.
  unfold pep_sites.
  destruct (getPepSites_step_frame st x) as (_ & _ & Hx & Hne).
  destruct (decide (p = x)) as [->|H].
  - by rewrite Hx.
  - by rewrite Hne.
Qed.

Lemma getPepSites_step_fst (st : Z * IntraSetRelation.t) (x : string) :
  fst (IntraSetRelation.getPepSites_step st x)
  = if (wrap_int (pep_sites (snd st) x) >? fst st)%Z
    then wrap_int (pep_sites (snd st) x) else fst st.
Proof.
  destruct st as [maxn r]. unfold IntraSetRelation.getPepSites_step, pep_sites.
  pose proof (subscript_fst x (IntraSetRelation.prot2pep r)) as Hs.
  destruct (IntraSetRelation.subscript x (IntraSetRelation.prot2pep r)) as [s p2p].
  simpl in *. by rewrite Hs.
Qed.

(** The loop of [getPepSites] computes a maximum. *)
Lemma getPepSites_loop (l : list string) :
  ∀ st : Z * IntraSetRelation.t,
    (∀ p, p ∈ l -> pep_sites (snd st) p <= INT_MAX) ->
    let n := fst (foldl IntraSetRelation.getPepSites_step st l) in
    fst st <= n ∧
    (∀ p, p ∈ l -> pep_sites (snd st) p <= n) ∧
    (n = fst st ∨ ∃ p, p ∈ l ∧ n = pep_sites (snd st) p).
Proof.
  induction l as [|x l IH]; intros st Hsmall; simpl.
  - split; [lia|]. split; [|by left]. intros p Hp. by apply elem_of_nil in Hp.
  - destruct (IH (IntraSetRelation.getPepSites_step st x)) as (Hle & Hall & Hex).
    { intros p Hp. rewrite pep_sites_step. apply Hsmall. by right. }
    assert (Hw : wrap_int (pep_sites (snd st) x) = pep_sites (snd st) x).
    { apply wrap_int_small. split; [unfold pep_sites; lia|].
      apply Hsmall. by left. }
    rewrite getPepSites_step_fst, Hw in Hle, Hex.
    split; [|split].
    + destruct (pep_sites (snd st) x >? fst st) eqn:E; lia.
    + intros p Hp. apply elem_of_cons in Hp as [->|Hp].
      * destruct (pep_sites (snd st) x >? fst st) eqn:E; lia.
      * specialize (Hall p Hp). by rewrite pep_sites_step in Hall.
    + destruct Hex as [Hex|(p & Hp & Hex)].
      * destruct (pep_sites (snd st) x >? fst st) eqn:E.
        -- right. exists x. split; [by left|done].
        -- by left.
      * right. exists p. split; [by right|]. by rewrite pep_sites_step in Hex.
Qed.

(** X4. When no queried protein has more peptides than an [int] counts,
    [getPepSites] returns the greatest number of peptides registered to a
    queried protein: it is at least each of these numbers, it is one of them
    or 0, and it is 0 when no queried protein is in the index. *)
Theorem getPepSites_max (prot : gset string) (r : IntraSetRelation.t) :
  (∀ p : string, p ∈ prot -> pep_sites r p <= INT_MAX) ->
  let n := fst (IntraSetRelation.getPepSites prot r) in
  0 <= n ∧
  (∀ p : string, p ∈ prot -> pep_sites r p <= n) ∧
  (n = 0 ∨ ∃ p : string, p ∈ prot ∧ n = pep_sites r p) ∧
  ((∀ p : string, p ∈ prot -> IntraSetRelation.prot2pep r !! p = None) -> n = 0).
Proof.
  intros Hsmall. unfold IntraSetRelation.getPepSites.
  destruct (getPepSites_loop (in_order prot) (0, r)) as (H0 & Hall & Hex).
  { intros p Hp. apply Hsmall. by apply elem_of_in_order. }
  simpl in *.
  assert (Hex' : fst (foldl IntraSetRelation.getPepSites_step (0, r) (in_order prot)) = 0
                 ∨ ∃ p : string, p ∈ prot ∧
                     fst (foldl IntraSetRelation.getPepSites_step (0, r) (in_order prot))
                     = pep_sites r p).
  { destruct Hex as [Hex|(p & Hp & Hex)]; [by left|].
    right. exists p. split; [by apply elem_of_in_order|done]. }
  split; [done|]. split; [|split; [done|]].
  - intros p Hp. apply Hall. by apply elem_of_in_order.
  - intros Hnone. destruct Hex' as [Hex'|(p & Hp & Hex')]; [done|].
    rewrite Hex'. unfold pep_sites. rewrite (Hnone p Hp). reflexivity.
Qed.

Lemma getPepSites_max_witness :
  let r := IntraSetRelation.registerRel "K.ELVISK.L" {["P1"%string]}
             (IntraSetRelation.registerRel "K.AAK.L" {["P1"%string; "P2"%string]}
                IntraSetRelation.empty) in
  fst (IntraSetRelation.getPepSites {["P1"%string; "P2"%string; "P3"%string]} r) = 2.
Proof.
  intros r.
  destruct (getPepSites_max {["P1"%string; "P2"%string; "P3"%string]} r)
    as (_ & _ & _ & _).
  - intros p Hp. apply elem_of_union in Hp as [Hp|Hp];
      [apply elem_of_union in Hp as [Hp|Hp]|];
      apply elem_of_singleton in Hp; subst p; vm_compute; discriminate.
  - vm_compute. reflexivity.
Defined.

Lemma getPepSites_loop_stable (l : list string) (maxn : Z) (r : IntraSetRelation.t) :
  (∀ p, p ∈ l -> is_Some (IntraSetRelation.prot2pep r !! p)) ->
  snd (foldl IntraSetRelation.getPepSites_step (maxn, r) l) = r.
Proof.
  revert maxn. induction l as [|x l IH]; intros maxn Hin; [done|].
  cbn [foldl]. destruct (Hin x) as [s Hs]; [by left|].
  assert (Hstep : IntraSetRelation.getPepSites_step (maxn, r) x
                  = (fst (IntraSetRelation.getPepSites_step (maxn, r) x), r)).
  { unfold IntraSetRelation.getPepSites_step, IntraSetRelation.subscript.
    rewrite Hs. simpl. by destruct r. }
  rewrite Hstep. apply IH. intros p Hp. apply Hin. by right.
Qed.

Lemma getPepSites_loop_fst (l : list string) :
  ∀ (maxn : Z) (r1 r2 : IntraSetRelation.t),
    (∀ p, pep_sites r1 p = pep_sites r2 p) ->
    fst (foldl IntraSetRelation.getPepSites_step (maxn, r1) l)
    = fst (foldl IntraSetRelation.getPepSites_step (maxn, r2) l).
Proof.
  induction l as [|x l IH]; intros maxn r1 r2 Heq; [done|].
  cbn [foldl].
  destruct (IntraSetRelation.getPepSites_step (maxn, r1) x) as [m1 s1] eqn:E1.
  destruct (IntraSetRelation.getPepSites_step (maxn, r2) x) as [m2 s2] eqn:E2.
  assert (Hm : m1 = m2).
  { change m1 with (fst (m1, s1)). change m2 with (fst (m2, s2)).
    rewrite <- E1, <- E2, !getPepSites_step_fst. simpl. by rewrite Heq. }
  assert (Hs : ∀ p, pep_sites s1 p = pep_sites s2 p).
  { intros p. change s1 with (snd (m1, s1)). change s2 with (snd (m2, s2)).
    rewrite <- E1, <- E2, !pep_sites_step. apply Heq. }
  rewrite Hm. by apply IH.
Qed.

Lemma getPepSites_loop_lookup (l : list string) (p : string) :
  ∀ st : Z * IntraSetRelation.t,
    IntraSetRelation.prot2pep (snd (foldl IntraSetRelation.getPepSites_step st l)) !! p
    = if decide (p ∈ l)
      then Some (default ∅ (IntraSetRelation.prot2pep (snd st) !! p))
      else IntraSetRelation.prot2pep (snd st) !! p.
Proof.
  induction l as [|x l IH]; intros st.
  - cbn [foldl]. destruct (decide (p ∈ [])) as [H|H]; [|done].
    by apply elem_of_nil in H.
  - cbn [foldl]. rewrite IH.
    destruct (getPepSites_step_frame st x) as (_ & _ & Hx & Hne).
    destruct (decide (p = x)) as [->|Hpx].
    + rewrite Hx. destruct (decide (x ∈ x :: l)) as [_|H];
        [|by exfalso; apply H; left].
      by destruct (decide (x ∈ l)).
    + rewrite (Hne p Hpx).
      destruct (decide (p ∈ l)) as [Hl|Hl], (decide (p ∈ x :: l)) as [Hl'|Hl'];
        try done.
      * exfalso. apply Hl'. by right.
      * exfalso. apply elem_of_cons in Hl' as [?|?]; done.
Qed.

(** X5. After [getPepSites] every queried protein has an entry in
    [prot2pep], empty when it had none, and the other entries are as before;
    the same query on the index it left returns the same number and changes
    nothing. *)
Theorem getPepSites_again (prot : gset string) (r : IntraSetRelation.t) :
  let '(n, r') := IntraSetRelation.getPepSites prot r in
  (∀ p : string,
     IntraSetRelation.prot2pep r' !! p
     = if decide (p ∈ prot)
       then Some (default ∅ (IntraSetRelation.prot2pep r !! p))
       else IntraSetRelation.prot2pep r !! p) ∧
  IntraSetRelation.getPepSites prot r' = (n, r').
Proof.
  destruct (IntraSetRelation.getPepSites prot r) as [n r'] eqn:E.
  assert (Hlook : ∀ p : string,
     IntraSetRelation.prot2pep r' !! p
     = if decide (p ∈ prot)
       then Some (default ∅ (IntraSetRelation.prot2pep r !! p))
       else IntraSetRelation.prot2pep r !! p).
  { intros p. change r' with (snd (n, r')). rewrite <- E.
    unfold IntraSetRelation.getPepSites. rewrite getPepSites_loop_lookup. simpl.
    destruct (decide (p ∈ in_order prot)) as [H|H], (decide (p ∈ prot)) as [H'|H'];
      try done; rewrite elem_of_in_order in H; done. }
  split; [exact Hlook|].
  unfold IntraSetRelation.getPepSites in *.
  apply injective_projections; simpl.
  - rewrite (getPepSites_loop_fst (in_order prot) 0 r' r).
    + by rewrite E.
    + intros p. unfold pep_sites. rewrite Hlook.
      by destruct (decide (p ∈ prot)).
  - apply getPepSites_loop_stable. intros p Hp. rewrite Hlook.
    apply elem_of_in_order in Hp. by destruct (decide (p ∈ prot)).
Qed.


Lemma populate_step_lookup (s : ScoreHolder) (tbl : gmap string (list ScoreHolder))
    (x p : string) :
  populate_step s tbl x !! p
  = if decide (p = x) then Some (default [] (tbl !! p) ++ [s]) else tbl !! p.
Proof.
  unfold populate_step. destruct (decide (p = x)) as [->|Hne].
  - destruct (tbl !! x); by rewrite lookup_insert_eq.
  - destruct (tbl !! x); by rewrite lookup_insert_ne.
Qed.

Lemma populate_inner_lookup (s : ScoreHolder) (l : list string) (p : string) :
  NoDup l ->
  ∀ tbl : gmap string (list ScoreHolder),
    foldl (populate_step s) tbl l !! p
    = if decide (p ∈ l) then Some (default [] (tbl !! p) ++ [s]) else tbl !! p.
Proof.
  induction 1 as [|x l Hx Hnd IH]; intros tbl.
  - simpl. destruct (decide (p ∈ [])) as [H|H]; [|done].
    by apply elem_of_nil in H.
  - cbn [foldl]. rewrite IH, populate_step_lookup.
    destruct (decide (p = x)) as [->|Hne].
    + destruct (decide (x ∈ l)); [done|].
      destruct (decide (x ∈ x :: l)) as [_|H]; [done|].
      exfalso. apply H. by left.
    + destruct (decide (p ∈ l)) as [Hl|Hl], (decide (p ∈ x :: l)) as [Hl'|Hl'];
        try done.
      * exfalso. apply Hl'. by right.
      * exfalso. apply elem_of_cons in Hl' as [?|?]; done.
Qed.

Lemma populate_lookup (fullset : list ScoreHolder) (p : string) :
  ∀ tbl : gmap string (list ScoreHolder),
    foldl (fun tbl peptIt =>
             foldl (populate_step peptIt) tbl (in_order (proteinIds (pPSM peptIt))))
          tbl fullset !! p
    = match peptides_of p fullset with
      | [] => tbl !! p
      | l => Some (default [] (tbl !! p) ++ l)
      end.
Proof.
  induction fullset as [|s fullset IH]; intros tbl; [done|].
  cbn [foldl]. rewrite IH.
  rewrite (populate_inner_lookup s _ p (NoDup_in_order _)).
  unfold peptides_of.
  destruct (decide (p ∈ in_order (proteinIds (pPSM s)))) as [Hin|Hin];
    rewrite elem_of_in_order in Hin.
  - rewrite (filter_cons_True _ s fullset Hin). simpl.
    destruct (filter _ fullset); simpl; [done|].
    by rewrite <- app_assoc.
  - by rewrite (filter_cons_False _ s fullset Hin).
Qed.

(** X6. [populateProteinsToPeptidesTable] appends to the list of each
    protein the peptides of the input that name it, in the order of the
    input; the list of a protein that no peptide names is left as it was,
    and what a list held before stays at its head. *)
Theorem populateProteinsToPeptidesTable_lookup (fullset : Scores)
    (thisEstimator : ProteinProbEstimator) (prot : string) :
  let named := peptides_of prot (scores fullset) in
  let before := proteinsToPeptides thisEstimator !! prot in
  let after :=
    proteinsToPeptides (populateProteinsToPeptidesTable fullset thisEstimator)
      !! prot in
  (named = [] -> after = before) ∧
  (named ≠ [] -> after = Some (default [] before ++ named)) ∧
  (∀ old : list ScoreHolder, before = Some old ->
     ∃ new : list ScoreHolder, after = Some new ∧ old `prefix_of` new).
Proof.
  intros named before after.
  assert (Hafter : after = match named with
                           | [] => before
                           | s :: l => Some (default [] before ++ s :: l)
                           end).
  { subst after named before. unfold populateProteinsToPeptidesTable.
    cbn [proteinsToPeptides]. apply populate_lookup. }
  split; [|split].
  - intros Hnil. by rewrite Hafter, Hnil.
  - intros Hne. rewrite Hafter. by destruct named.
  - intros old Hold. rewrite Hafter, Hold. destruct named as [|s l].
    + by exists old.
    + exists (old ++ s :: l). split; [done|]. by apply prefix_app_r.
Qed.

Lemma populateProteinsToPeptidesTable_lookup_witness :
  ∃ new : list ScoreHolder,
    proteinsToPeptides
      (populateProteinsToPeptidesTable target_and_decoy (session (-1) (-1)))
      !! "P"%string = Some new ∧
    scores target_and_decoy `prefix_of` new.
Proof.
  destruct (populateProteinsToPeptidesTable_lookup target_and_decoy
              (session (-1) (-1)) "P"%string) as (_ & _ & Hkeep).
  apply Hkeep. vm_compute. reflexivity.
Defined.

Lemma initialize_table (fullset : Scores) (alpha_par beta_par : Q) (prot : string) :
  proteinsToPeptides
    (snd (initialize fullset (new_ProteinProbEstimator alpha_par beta_par))) !! prot
  = match peptides_of prot (scores fullset) with
    | [] => None
    | l => Some l
    end.
Proof.
  unfold initialize, populateProteinsToPeptidesTable. cbn [snd proteinsToPeptides].
  rewrite populate_lookup. simpl. rewrite lookup_empty.
  by destruct (peptides_of prot (scores fullset)).
Qed.

Lemma writeXML_loop (get : PSMDescription -> string) (protein_id : string)
    (peptides : list ScoreHolder) :
  (∀ s, s ∈ peptides -> protein_id ∈ proteinIds (pPSM s)) ->
  ∀ os : list string,
    iterate (writeXML_peptide get protein_id) peptides os
    = Done (os ++ (peptide_seq_line get <$> peptides)).
Proof.
  induction peptides as [|s l IH]; intros Hall os.
  - simpl. by rewrite app_nil_r.
  - assert (Hstep : writeXML_peptide get protein_id s os
                    = Done (os ++ [peptide_seq_line get s])).
    { unfold writeXML_peptide.
      rewrite bool_decide_eq_true_2 by (apply Hall; by left). done. }
    cbn [iterate]. rewrite Hstep, bind_Done, IH.
    + by rewrite <- app_assoc.
    + intros s' Hs'. apply Hall. by right.
Qed.

(** X7. On the table of an estimator that [initialize] filled,
    [writeXML_writeAssociatedPeptides] for a protein that some peptide of
    the input names passes its assertion at every peptide and writes one
    line per peptide of the protein, in the order of the input. *)
Theorem writeXML_writeAssociatedPeptides_initialized
    (get : PSMDescription -> string) (fullset : Scores) (alpha_par beta_par : Q)
    (protein_id : string) (os : list string) :
  peptides_of protein_id (scores fullset) ≠ [] ->
  writeXML_writeAssociatedPeptides get protein_id os
    (proteinsToPeptides
       (snd (initialize fullset (new_ProteinProbEstimator alpha_par beta_par))))
  = Done (os ++ (peptide_seq_line get <$> peptides_of protein_id (scores fullset))).
Proof.
  intros Hne. unfold writeXML_writeAssociatedPeptides.
  rewrite initialize_table.
  destruct (peptides_of protein_id (scores fullset)) as [|s l] eqn:E; [done|].
  apply writeXML_loop. intros s' Hs'. rewrite <- E in Hs'.
  unfold peptides_of in Hs'. by apply list_elem_of_filter in Hs' as [? _].
Qed.

Lemma writeXML_writeAssociatedPeptides_initialized_witness :
  writeXML_writeAssociatedPeptides peptide "P" ["    <protein>"%string]
    (proteinsToPeptides (session (-1) (-1)))
  = Done ["    <protein>"%string;
          peptide_seq_line peptide
            {| label := 1;
               pPSM := {| peptide := "K.ELVISK.L"; proteinIds := {["P"%string]} |} |};
          peptide_seq_line peptide
            {| label := -1;
               pPSM := {| peptide := "K.SIVLEK.L"; proteinIds := {["P"%string]} |} |}].
Proof.
  unfold session.
  rewrite (writeXML_writeAssociatedPeptides_initialized peptide target_and_decoy).
  - vm_compute. reflexivity.
  - vm_compute. discriminate.
Defined.



Lemma populateTPandFNLists_NoDup (entries : list (string * list ScoreHolder)) :
  NoDup (map fst entries) ->
  ∀ point : gridPoint.t,
    NoDup (gridPoint.truePositives point) ->
    NoDup (gridPoint.falsePositives point) ->
    (∀ e, e ∈ entries ->
       (fst e ∉ gridPoint.truePositives point) ∧
       (fst e ∉ gridPoint.falsePositives point)) ->
    let point' := foldl populateTPandFNLists_step point entries in
    NoDup (gridPoint.truePositives point') ∧
    NoDup (gridPoint.falsePositives point').
Proof.
  induction entries as [|[name peptides] entries IH];
    intros Hkeys point Htp Hfp Hfresh; [done|].
  cbn [foldl]. simpl in Hkeys. apply NoDup_cons in Hkeys as [Hname Hkeys].
  destruct (Hfresh (name, peptides)) as [Hn1 Hn2]; [by left|]. simpl in Hn1, Hn2.
  apply IH; [done|..]; unfold populateTPandFNLists_step; simpl;
    destruct (scan_labels peptides) as [tp fp]; simpl.
  - destruct tp; [|done]. apply NoDup_app. split; [done|].
    split; [|apply NoDup_singleton].
    intros x Hx Hx'. apply list_elem_of_singleton in Hx'. by subst.
  - destruct fp; [|done]. apply NoDup_app. split; [done|].
    split; [|apply NoDup_singleton].
    intros x Hx Hx'. apply list_elem_of_singleton in Hx'. by subst.
  - intros e He. destruct (Hfresh e) as [H1 H2]; [by right|].
    assert (fst e ≠ name) as Hne.
    { intros Heq. apply Hname. rewrite <- Heq.
      apply list_elem_of_fmap. by exists e. }
    split.
    + destruct tp; [|done]. rewrite elem_of_app, list_elem_of_singleton.
      by intros [?|?].
    + destruct fp; [|done]. rewrite elem_of_app, list_elem_of_singleton.
      by intros [?|?].
Qed.

(** What the two lists hold after [populateTPandFNLists] on a fresh
    point, in terms of the table. *)
Lemma populateTPandFNLists_mem (point : gridPoint.t) (output : fidoOutput)
    (toBeTested : ProteinProbEstimator) :
  gridPoint.truePositives point = [] ->
  gridPoint.falsePositives point = [] ->
  ∃ point' : gridPoint.t,
    populateTPandFNLists point output toBeTested = Done point' ∧
    NoDup (gridPoint.truePositives point') ∧
    NoDup (gridPoint.falsePositives point') ∧
    ∀ prot : string,
      (prot ∈ gridPoint.truePositives point' ↔
       ∃ peptides p, proteinsToPeptides toBeTested !! prot = Some peptides ∧
                     p ∈ peptides ∧ label p = 1) ∧
      (prot ∈ gridPoint.falsePositives point' ↔
       ∃ peptides p, proteinsToPeptides toBeTested !! prot = Some peptides ∧
                     p ∈ peptides ∧ label p ≠ 1).
Proof.
  intros Htp Hfp. unfold populateTPandFNLists. rewrite Htp, Hfp. simpl.
  eexists. split; [reflexivity|].
  destruct (populateTPandFNLists_NoDup
              (entries_in_order (proteinsToPeptides toBeTested))
              (NoDup_fst_entries_in_order _) point) as [Hn1 Hn2].
  { rewrite Htp. constructor. }
  { rewrite Hfp. constructor. }
  { intros e _. rewrite Htp, Hfp. split; apply not_elem_of_nil. }
  split; [done|]. split; [done|].
  intros prot.
  destruct (populateTPandFNLists_loop
              (entries_in_order (proteinsToPeptides toBeTested)) point prot)
    as [H1 H2].
  rewrite H1, H2, Htp, Hfp. clear H1 H2. split; split.
  - intros [H|(ps & Hin & Hps)]; [by apply elem_of_nil in H|].
    apply elem_of_entries_in_order in Hin.
    apply scan_labels_target in Hps as (p & Hp & Hl). by exists ps, p.
  - intros (ps & p & Hps & Hp & Hl). right. exists ps.
    split; [by apply elem_of_entries_in_order|].
    apply scan_labels_target. by exists p.
  - intros [H|(ps & Hin & Hps)]; [by apply elem_of_nil in H|].
    apply elem_of_entries_in_order in Hin.
    apply scan_labels_decoy in Hps as (p & Hp & Hl). by exists ps, p.
  - intros (ps & p & Hps & Hp & Hl). right. exists ps.
    split; [by apply elem_of_entries_in_order|].
    apply scan_labels_decoy. by exists p.
Qed.

(** X8. For an estimator that [initialize] filled, [populateTPandFNLists]
    on a point with empty lists puts a protein in [truePositives] exactly
    when a peptide of the input names it and has the label 1, and in
    [falsePositives] exactly when a peptide of the input names it and has
    another label; neither list holds a protein twice, and a protein that
    some peptide names is in one list at least. *)
Theorem classification_of_input (fullset : Scores) (alpha_par beta_par : Q)
    (point : gridPoint.t) (output : fidoOutput) :
  gridPoint.truePositives point = [] ->
  gridPoint.falsePositives point = [] ->
  ∃ point' : gridPoint.t,
    populateTPandFNLists point output
      (snd (initialize fullset (new_ProteinProbEstimator alpha_par beta_par)))
      = Done point' ∧
    NoDup (gridPoint.truePositives point') ∧
    NoDup (gridPoint.falsePositives point') ∧
    ∀ prot : string,
      (prot ∈ gridPoint.truePositives point' ↔
       ∃ s, s ∈ scores fullset ∧ prot ∈ proteinIds (pPSM s) ∧ label s = 1) ∧
      (prot ∈ gridPoint.falsePositives point' ↔
       ∃ s, s ∈ scores fullset ∧ prot ∈ proteinIds (pPSM s) ∧ label s ≠ 1) ∧
      ((∃ s, s ∈ scores fullset ∧ prot ∈ proteinIds (pPSM s)) ->
       prot ∈ gridPoint.truePositives point' ∨
       prot ∈ gridPoint.falsePositives point').
Proof.
  intros Htp Hfp.
  destruct (populateTPandFNLists_mem point output
              (snd (initialize fullset (new_ProteinProbEstimator alpha_par beta_par)))
              Htp Hfp) as (point' & Hrun & Hn1 & Hn2 & Hmem).
  exists point'. split; [done|]. split; [done|]. split; [done|].
  intros prot. destruct (Hmem prot) as [H1 H2].
  assert (Htbl : ∀ P : ScoreHolder -> Prop,
    (∃ peptides p,
       proteinsToPeptides
         (snd (initialize fullset (new_ProteinProbEstimator alpha_par beta_par)))
         !! prot = Some peptides ∧ p ∈ peptides ∧ P p) ↔
    (∃ s, s ∈ scores fullset ∧ prot ∈ proteinIds (pPSM s) ∧ P s)).
  { intros P. split.
    - intros (ps & p & Hps & Hp & HP). rewrite initialize_table in Hps.
      destruct (peptides_of prot (scores fullset)) as [|s l] eqn:E; [done|].
      injection Hps as <-. rewrite <- E in Hp.
      apply list_elem_of_filter in Hp as [Hprot Hin]. by exists p.
    - intros (s & Hin & Hprot & HP).
      assert (Hs : s ∈ peptides_of prot (scores fullset))
        by (by apply list_elem_of_filter).
      exists (peptides_of prot (scores fullset)), s.
      split; [|done]. rewrite initialize_table.
      destruct (peptides_of prot (scores fullset)); [|done].
      by apply elem_of_nil in Hs. }
  rewrite H1, H2, !Htbl. split; [done|]. split; [done|].
  intros (s & Hin & Hprot).
  destruct (decide (label s = 1)); [left|right]; by exists s.
Qed.

Lemma assert_length_Done (A : Type) (l : list A) (u : unit) :
  assert_ (length l =? 0)%nat = Done u -> l = [].
Proof. by destruct l. Qed.

(** X9. A point is classified once: when the table has a protein with a
    peptide, a second call of [populateTPandFNLists] on the point that the
    first call returned aborts on an assertion. *)
Theorem populateTPandFNLists_once (point point' : gridPoint.t)
    (output output' : fidoOutput) (toBeTested toBeTested' : ProteinProbEstimator)
    (prot : string) (s : ScoreHolder) (peptides : list ScoreHolder) :
  populateTPandFNLists point output toBeTested = Done point' ->
  proteinsToPeptides toBeTested !! prot = Some (s :: peptides) ->
  populateTPandFNLists point' output' toBeTested' = Abort AssertionFailed.
Proof.
  intros Hrun Hprot.
  assert (Hempty : gridPoint.truePositives point = [] ∧
                   gridPoint.falsePositives point = []).
  { unfold populateTPandFNLists in Hrun.
    bind_inv Hrun as u1 H1. bind_inv Hrun as u2 H2.
    split; eapply assert_length_Done; done. }
  destruct Hempty as [Htp Hfp].
  destruct (populateTPandFNLists_mem point output toBeTested Htp Hfp)
    as (point'' & Hrun' & _ & _ & Hmem).
  rewrite Hrun in Hrun'. injection Hrun' as <-.
  destruct (Hmem prot) as [H1 H2].
  unfold populateTPandFNLists.
  destruct (decide (label s = 1)) as [Hl|Hl].
  - assert (Hin : prot ∈ gridPoint.truePositives point').
    { apply H1. exists (s :: peptides), s. split; [done|]. split; [by left|done]. }
    destruct (gridPoint.truePositives point'); [by apply elem_of_nil in Hin|done].
  - assert (Hin : prot ∈ gridPoint.falsePositives point').
    { apply H2. exists (s :: peptides), s. split; [done|]. split; [by left|done]. }
    destruct (gridPoint.truePositives point'); simpl;
      (destruct (gridPoint.falsePositives point');
         [by apply elem_of_nil in Hin|done]).
Qed.

Lemma populateTPandFNLists_once_witness :
  ∃ point' : gridPoint.t,
    populateTPandFNLists (gridPoint.make 0.01 0) (mk_fidoOutput [] [] [])
      (session (-1) (-1)) = Done point' ∧
    populateTPandFNLists point' (mk_fidoOutput [] [] []) (session (-1) (-1))
      = Abort AssertionFailed.
Proof.
  destruct (populateTPandFNLists (gridPoint.make 0.01 0) (mk_fidoOutput [] [] [])
              (session (-1) (-1))) as [point'|why] eqn:E;
    [|vm_compute in E; discriminate].
  exists point'. split; [reflexivity|].
  eapply (populateTPandFNLists_once _ point' _ _ _ _ "P"); [exact E|].
  vm_compute. reflexivity.
Defined.

Lemma classification_of_input_witness :
  ∃ point' : gridPoint.t,
    populateTPandFNLists (gridPoint.make 0.01 0) (mk_fidoOutput [] [] [])
      (snd (initialize target_and_decoy (new_ProteinProbEstimator (-1) (-1))))
      = Done point' ∧
    NoDup (gridPoint.truePositives point') ∧
    "P"%string ∈ gridPoint.truePositives point'.
Proof.
  destruct (classification_of_input target_and_decoy (-1) (-1)
              (gridPoint.make 0.01 0) (mk_fidoOutput [] [] []) eq_refl eq_refl)
    as (point' & Hrun & Hn & _ & Hmem).
  exists point'. split; [exact Hrun|]. split; [exact Hn|].
  apply (Hmem "P"%string).
  exists {| label := 1;
            pPSM := {| peptide := "K.ELVISK.L"; proteinIds := {["P"%string]} |} |}.
  split; [by left|]. split; [|reflexivity].
  simpl. by apply elem_of_singleton.
Defined.

(** ** The aggregation and the grid search *)

Local Open Scope Q_scope.

Lemma Array_sort_pairs (a : list Q) :
  ∃ ps : list (Q * nat),
    Array_sort a = (ps.*1, ps.*2) ∧ ps ≡ₚ zip a (seq 0 (length a)).
Proof.
  eexists. split; [reflexivity|]. apply sort_pairs_perm.
Qed.

(** X12. [buildOutput] keeps each posterior error with its group of
    names: the pairs of the output are the pairs of the input in another
    order. *)
Theorem buildOutput_keeps_pairs (g : GroupPowerBigraph) :
  probabilityR g ≠ [] ->
  length (groupProtNames g) = length (probabilityR g) ->
  ∃ out : fidoOutput,
    buildOutput g = Done out ∧
    zip (peps out) (protein_ids out)
      ≡ₚ zip (probabilityR g) (groupProtNames g).
Proof.
  intros Hne Hlen.
  pose proof (buildOutput_Done g Hne Hlen) as Hrun.
  destruct (Array_sort_pairs (probabilityR g)) as (ps & Hps & Hperm).
  rewrite Hps in Hrun. eexists. split; [exact Hrun|]. simpl.
  set (f := fun i => default [] (groupProtNames g !! i)).
  rewrite zip_with_fmap_r, zip_with_fst_snd, Hperm.
  rewrite <- zip_with_fst_snd, fst_zip, snd_zip by (rewrite length_seq; lia).
  rewrite <- (zip_with_fmap_r pair f).
  replace (f <$> seq 0 (length (probabilityR g))) with (groupProtNames g); [done|].
  apply list_eq. intros i. rewrite list_lookup_fmap.
  destruct (decide (i < length (groupProtNames g))%nat) as [Hi|Hi].
  - rewrite (lookup_seq_lt _ _ i) by lia. simpl. unfold f.
    destruct (lookup_lt_is_Some_2 (groupProtNames g) i Hi) as [x ->]. done.
  - rewrite (lookup_ge_None_2 (groupProtNames g)) by lia.
    rewrite (lookup_ge_None_2 (seq _ _)) by (rewrite length_seq; lia). done.
Qed.

Lemma buildOutput_keeps_pairs_witness :
  ∃ out : fidoOutput,
    buildOutput {| probabilityR := [0.3; 0.1; 0.2];
                   groupProtNames := [["C"]; ["A"]; ["B"]]%string |} = Done out ∧
    zip (peps out) (protein_ids out)
      ≡ₚ [(0.3, ["C"%string]); (0.1, ["A"%string]); (0.2, ["B"%string])].
Proof.
  destruct (buildOutput_keeps_pairs
              {| probabilityR := [0.3; 0.1; 0.2];
                 groupProtNames := [["C"]; ["A"]; ["B"]]%string |})
    as (out & Hrun & Hperm); [done|reflexivity|].
  exists out. split; [exact Hrun|exact Hperm].
Defined.

Lemma assert_Done (b : bool) (u : unit) : assert_ b = Done u -> b = true.
Proof. by destruct b. Qed.

Lemma assert_false_Abort (b : bool) : b = false -> assert_ b = Abort AssertionFailed.
Proof. by intros ->. Qed.

Lemma gridPoint_gt_sentinel (lhs rhs : gridPoint.t) :
  gridPoint.objectiveFnValue lhs == -1 ->
  gridPoint.gt lhs rhs = Abort AssertionFailed.
Proof.
  intros H. unfold gridPoint.gt, Qneq_bool.
  apply Qeq_bool_iff in H. rewrite H. reflexivity.
Qed.

(** X13. [operator >] aborts on its assertion when the objective of either
    point is the value -1 of a point that was not evaluated; otherwise it
    is a strict comparison: it is true exactly when the left objective is
    the greater one, and then the converse comparison is false. *)
Theorem gridPoint_gt_strict (lhs rhs : gridPoint.t) :
  (gridPoint.objectiveFnValue lhs == -1 ∨ gridPoint.objectiveFnValue rhs == -1 ->
   gridPoint.gt lhs rhs = Abort AssertionFailed) ∧
  (¬ gridPoint.objectiveFnValue lhs == -1 ->
   ¬ gridPoint.objectiveFnValue rhs == -1 ->
   (gridPoint.gt lhs rhs = Done true ∧
    gridPoint.objectiveFnValue rhs < gridPoint.objectiveFnValue lhs ∧
    gridPoint.gt rhs lhs = Done false) ∨
   (gridPoint.gt lhs rhs = Done false ∧
    gridPoint.objectiveFnValue lhs <= gridPoint.objectiveFnValue rhs)).
Proof.
  unfold gridPoint.gt, Qgt_bool. split.
  - intros [H|H].
    + apply Qeq_bool_iff in H. unfold Qneq_bool. rewrite H. reflexivity.
    + apply Qeq_bool_iff in H. unfold Qneq_bool. rewrite H.
      by destruct (Qeq_bool (gridPoint.objectiveFnValue lhs) (-1)).
  - intros Hl Hr. apply Qneq_bool_true in Hl, Hr. rewrite Hl, Hr.
    cbn [assert_]. rewrite !bind_Done.
    destruct (Qle_bool (gridPoint.objectiveFnValue lhs)
                       (gridPoint.objectiveFnValue rhs)) eqn:E.
    + right. split; [done|]. by apply Qle_bool_iff.
    + left. split; [done|].
      assert (Hlt : gridPoint.objectiveFnValue rhs < gridPoint.objectiveFnValue lhs).
      { apply Qnot_le_lt. intros H. apply Qle_bool_iff in H. congruence. }
      split; [done|].
      assert (Hle : Qle_bool (gridPoint.objectiveFnValue rhs)
                             (gridPoint.objectiveFnValue lhs) = true).
      { apply Qle_bool_iff. by apply Qlt_le_weak. }
      by rewrite Hle.
Qed.

Lemma gridPoint_gt_strict_witness :
  gridPoint.gt (gridPoint.set_objectiveFnValue 0.5 (gridPoint.make 0.01 0))
               (gridPoint.set_objectiveFnValue 0.25 (gridPoint.make 0.06 0))
    = Done true ∧
  gridPoint.gt (gridPoint.make 0.01 0)
               (gridPoint.set_objectiveFnValue 0.25 (gridPoint.make 0.06 0))
    = Abort AssertionFailed.
Proof.
  split.
  - destruct (gridPoint_gt_strict
                (gridPoint.set_objectiveFnValue 0.5 (gridPoint.make 0.01 0))
                (gridPoint.set_objectiveFnValue 0.25 (gridPoint.make 0.06 0)))
      as [_ H].
    destruct H as [(H & _)|(_ & H)]; [discriminate|discriminate|exact H|].
    vm_compute in H. by exfalso.
  - apply gridPoint_gt_strict. left. reflexivity.
Defined.

Section GridExtras.
Variable ext : Collaborators.

Lemma calculateProteinProb_tail_unset (this : ProteinProbEstimator) :
  alpha this == -1 ∨ beta this == -1 ->
  calculateProteinProb_tail ext this = Abort AssertionFailed.
Proof.
  intros H. unfold calculateProteinProb_tail.
  destruct (Qneq_bool (alpha this) (-1)) eqn:Ea; [|done].
  destruct (Qneq_bool (beta this) (-1)) eqn:Eb; [|done].
  apply Qneq_bool_true in Ea, Eb. by destruct H.
Qed.

(** X15. Without grid search, [calculateProteinProb] aborts on an assertion
    when alpha or beta is -1, whatever the inference engine would
    return. *)
Theorem calculateProteinProb_unset (this : ProteinProbEstimator) :
  alpha this == -1 ∨ beta this == -1 ->
  calculateProteinProb ext false this = Abort AssertionFailed.
Proof.
  intros H. unfold calculateProteinProb. rewrite bind_Done.
  by apply calculateProteinProb_tail_unset.
Qed.

(** What a cell whose objective was computed tells about the estimator and
    about the inference run. *)
Lemma calculateObjectiveFn_inv (lambda a b : Q)
    (this this' : ProteinProbEstimator) (point : gridPoint.t) :
  calculateObjectiveFn ext lambda (gridPoint.make a b) this = Done (point, this') ->
  ¬ a == -1 ∧ ¬ b == -1 ∧
  this' = set_proteinGraph (fido ext a b (gamma this) (peptideScores this))
            (set_alpha_beta a b this) ∧
  ∃ output : fidoOutput,
    buildOutput (fido ext a b (gamma this) (peptideScores this)) = Done output.
Proof.
  unfold calculateObjectiveFn. cbn [gridPoint.alpha gridPoint.beta gridPoint.make].
  intros H. bind_inv H as u1 H1. bind_inv H as u2 H2.
  apply assert_Done, Qneq_bool_true in H1, H2.
  bind_inv H as [output e] H3.
  unfold calculateProteinProb_tail in H3.
  bind_inv H3 as u3 H4. bind_inv H3 as u4 H5. bind_inv H3 as out H6.
  injection H3 as -> <-.
  bind_inv H as point1 H7.
  destruct (calculateFDRs ext output _ _) as [est emp].
  destruct (calculateRoc ext output _ _) as [fps tps].
  injection H as _ <-.
  split; [done|]. split; [done|]. split; [done|]. by exists output.
Qed.

Lemma gridSearch_cell_inv (lambda a b : Q)
    (st st' : ProteinProbEstimator * gridPoint.t) :
  gridSearch_cell ext lambda a b st = Done st' ->
  ¬ a == -1 ∧ ¬ b == -1 ∧
  fst st' = set_proteinGraph (fido ext a b (gamma (fst st)) (peptideScores (fst st)))
              (set_alpha_beta a b (fst st)) ∧
  ∃ output : fidoOutput,
    buildOutput (fido ext a b (gamma (fst st)) (peptideScores (fst st)))
      = Done output.
Proof.
  unfold gridSearch_cell. destruct st as [this bestSoFar]. intros H.
  bind_inv H as [current e] H1. bind_inv H as u H2. injection H as <-.
  by apply calculateObjectiveFn_inv in H1.
Qed.

(** A property of the state that every turn keeps holds when the loop is
    done, and held before the turn of each value. *)
Lemma iterate_invariant {A S : Type} (body : A -> S -> outcome S) (P : S -> Prop) :
  (∀ x s s', P s -> body x s = Done s' -> P s') ->
  ∀ (xs : list A) (s s' : S),
    P s -> iterate body xs s = Done s' ->
    P s' ∧ ∀ x, x ∈ xs -> ∃ s1 s2, P s1 ∧ body x s1 = Done s2.
Proof.
  intros Hstep. induction xs as [|x xs IH]; intros s s' Hs Hrun.
  - simpl in Hrun. injection Hrun as <-. split; [done|].
    intros x Hx. by apply elem_of_nil in Hx.
  - cbn [iterate] in Hrun. bind_inv Hrun as s1 H1.
    destruct (IH s1 s' (Hstep x s s1 Hs H1) Hrun) as [Hs' Hall].
    split; [done|]. intros y Hy. apply elem_of_cons in Hy as [->|Hy].
    + by exists s, s1.
    + by apply Hall.
Qed.

Lemma gridSearch_cell_same_input (this : ProteinProbEstimator) (lambda : Q)
    (c : Q * Q) (st st' : ProteinProbEstimator * gridPoint.t) :
  same_input this (fst st) ->
  gridSearch_cell ext lambda (fst c) (snd c) st = Done st' ->
  same_input this (fst st').
Proof.
  intros Hs H. apply gridSearch_cell_inv in H as (_ & _ & -> & _).
  exact Hs.
Qed.

Lemma gridSearch_loops_inv (this e : ProteinProbEstimator) (best : gridPoint.t) :
  gridSearch_loops ext this = Done (e, best) ->
  same_input this e ∧
  ∀ c, c ∈ gridCells this ->
    ∃ output : fidoOutput,
      buildOutput (fido ext (fst c) (snd c) (gamma this) (peptideScores this))
        = Done output.
Proof.
  rewrite gridSearch_loops_cells. unfold gridSearch_upto. rewrite firstn_all.
  intros H.
  destruct (iterate_invariant
              (fun c => gridSearch_cell ext 0.15 (fst c) (snd c))
              (fun st => same_input this (fst st))
              (fun c st st' => gridSearch_cell_same_input this 0.15 c st st')
              (gridCells this) (this, bestSoFar_seed) (e, best)
              (conj eq_refl (conj eq_refl eq_refl)) H) as [Hs Hall].
  split; [exact Hs|].
  intros c Hc. destruct (Hall c Hc) as (s1 & s2 & (Hg & Hp & _) & Hrun).
  apply gridSearch_cell_inv in Hrun as (_ & _ & _ & Hout).
  simpl in Hg, Hp. by rewrite Hg, Hp in Hout.
Qed.

(** X16. A grid search that returns has changed neither gamma, nor the
    peptide scores, nor the table of the peptides of each protein. *)
Theorem gridSearchAlphaBeta_frame (this e : ProteinProbEstimator) :
  gridSearchAlphaBeta ext this = Done e ->
  gamma e = gamma this ∧ peptideScores e = peptideScores this ∧
  proteinsToPeptides e = proteinsToPeptides this.
Proof.
  unfold gridSearchAlphaBeta. intros H. bind_inv H as [e' best] H1.
  injection H as ->. by apply gridSearch_loops_inv in H1 as [Hs _].
Qed.

(** X17. In the loop of the grid search, over whatever cells it reaches:
    when the inference engine finds no equivalence class for one of the
    cells, the loop does not end normally, the cell is not skipped. *)
Theorem gridSearch_cell_empty_result (this : ProteinProbEstimator)
    (bestSoFar : gridPoint.t) (cells : list (Q * Q)) (a b : Q) :
  (a, b) ∈ cells ->
  probabilityR (fido ext a b (gamma this) (peptideScores this)) = [] ->
  ∃ why : abort,
    iterate (fun c => gridSearch_cell ext 0.15 (fst c) (snd c)) cells
            (this, bestSoFar) = Abort why.
Proof.
  intros Hc Hempty.
  destruct (iterate _ cells (this, bestSoFar)) as [[e best]|why] eqn:E;
    [|by exists why].
  destruct (iterate_invariant
              (fun c => gridSearch_cell ext 0.15 (fst c) (snd c))
              (fun st => same_input this (fst st))
              (fun c st st' => gridSearch_cell_same_input this 0.15 c st st')
              cells (this, bestSoFar) (e, best)
              (conj eq_refl (conj eq_refl eq_refl)) E) as [_ Hall].
  destruct (Hall (a, b) Hc) as (s1 & s2 & (Hg & Hp & _) & Hrun).
  apply gridSearch_cell_inv in Hrun as (_ & _ & _ & output & Hout).
  simpl in Hg, Hp, Hout. rewrite Hg, Hp in Hout.
  destruct (fido ext a b (gamma this) (peptideScores this)) as [ps names].
  simpl in Hempty. subst ps. by rewrite buildOutput_nil in Hout.
Qed.

(** X18. A cell whose objective is the value -1 aborts the grid search on
    the assertion of [operator >]. *)
Theorem gridSearch_cell_sentinel (this : ProteinProbEstimator) (a b v : Q)
    (bestSoFar : gridPoint.t) :
  objective_at ext this a b = Done v -> v == -1 ->
  gridSearch_cell ext 0.15 a b (this, bestSoFar) = Abort AssertionFailed.
Proof.
  unfold objective_at, gridSearch_cell. intros H Hv.
  bind_inv H as [point e] H1. injection H as <-.
  rewrite bind_Done.
  by rewrite (gridPoint_gt_sentinel point bestSoFar Hv).
Qed.

(** X19. The objective of a cell depends on the cell, gamma, the peptide
    scores and the table only: not on the alpha and beta that the estimator
    holds, nor on the graph of an earlier cell. *)
Theorem objective_at_input_only (e1 e2 : ProteinProbEstimator) (a b : Q) :
  same_input e1 e2 ->
  objective_at ext e1 a b = objective_at ext e2 a b.
Proof.
  intros (Hg & Hp & Ht).
  unfold objective_at, calculateObjectiveFn.
  cbn [gridPoint.alpha gridPoint.beta gridPoint.make].
  destruct (assert_ (Qneq_bool a (-1))) as [u1|why]; [|done].
  destruct (assert_ (Qneq_bool b (-1))) as [u2|why]; [|done].
  rewrite !bind_Done. unfold calculateProteinProb_tail. simpl.
  destruct (assert_ (Qneq_bool a (-1))) as [u3|why]; [|done].
  destruct (assert_ (Qneq_bool b (-1))) as [u4|why]; [|done].
  rewrite !bind_Done, Hg, Hp.
  destruct (buildOutput (fido ext a b (gamma e1) (peptideScores e1)))
    as [output|why]; [|done].
  rewrite !bind_Done. unfold populateTPandFNLists. simpl.
  rewrite Ht.
  destruct (calculateFDRs ext output _ _) as [est emp].
  destruct (calculateRoc ext output _ _) as [fps tps].
  reflexivity.
Qed.

Lemma Qle_bool_step (a : Q) : Qle_bool (a + 0.05) a = false.
Proof.
  destruct (Qle_bool (a + 0.05) a) eqn:E; [|done].
  apply Qle_bool_iff in E. lra.
Qed.

Lemma for_values_single (a : Q) :
  for_values (for_fuel 0.05 a a) 0.05 a a = [a].
Proof.
  assert (Hf : for_fuel 0.05 a a = 2%nat).
  { unfold for_fuel.
    assert (H : (a - a) / 0.05 == 0) by (field).
    rewrite H. reflexivity. }
  rewrite Hf. simpl.
  assert (Ha : Qle_bool a a = true) by (apply Qle_bool_iff, Qle_refl).
  by rewrite Ha, Qle_bool_step.
Qed.

Lemma for_values_head (lower upper : Q) :
  lower <= upper ->
  ∃ rest, for_values (for_fuel 0.05 lower upper) 0.05 lower upper = lower :: rest.
Proof.
  intros Hle. unfold for_fuel.
  assert (H0 : (0 <= Qfloor ((upper - lower) / 0.05))%Z).
  { change 0%Z with (Qfloor 0). apply Qfloor_resp_le.
    apply Qle_shift_div_l; [reflexivity|]. lra. }
  destruct (Z.to_nat (Qfloor ((upper - lower) / 0.05) + 2)) as [|n] eqn:E; [lia|].
  simpl. apply Qle_bool_iff in Hle. rewrite Hle. by eexists.
Qed.

Lemma gridBounds_ordered (this : ProteinProbEstimator) :
  let '(lower_a, upper_a, lower_b, upper_b) := gridBounds this in
  lower_a <= upper_a ∧ lower_b <= upper_b.
Proof.
  unfold gridBounds.
  destruct (Qneq_bool (alpha this) (-1)), (Qneq_bool (beta this) (-1));
    split; try apply Qle_refl; vm_compute; discriminate.
Qed.

Lemma gridCells_nonempty (this : ProteinProbEstimator) : gridCells this ≠ [].
Proof.
  unfold gridCells, grid_a, grid_b.
  pose proof (gridBounds_ordered this) as H.
  destruct (gridBounds this) as [[[la ua] lb] ub]. destruct H as [Ha Hb].
  destruct (for_values_head la ua Ha) as [ra ->].
  destruct (for_values_head lb ub Hb) as [rb ->].
  done.
Qed.

(** X20. When the grid search has returned, alpha and beta are not -1 and
    the calculation that follows it in [calculateProteinProb] returns: it
    runs the engine once more on the parameters that the search left and
    leaves the estimator as the search left it. *)
Theorem calculateProteinProb_after_search (this e : ProteinProbEstimator) :
  gridSearchAlphaBeta ext this = Done e ->
  ¬ alpha e == -1 ∧ ¬ beta e == -1 ∧
  ∃ out : fidoOutput,
    calculateProteinProb ext true this = Done (out, e) ∧
    buildOutput (fido ext (alpha e) (beta e) (gamma e) (peptideScores e)) = Done out.
Proof.
  intros Hsearch.
  assert (Hlast : ∃ (a b : Q) (prev : ProteinProbEstimator) (out : fidoOutput),
            ¬ a == -1 ∧ ¬ b == -1 ∧
            e = set_proteinGraph (fido ext a b (gamma prev) (peptideScores prev))
                  (set_alpha_beta a b prev) ∧
            buildOutput (fido ext a b (gamma prev) (peptideScores prev)) = Done out).
  { unfold gridSearchAlphaBeta in Hsearch. bind_inv Hsearch as [e' best] H.
    injection Hsearch as ->.
    rewrite gridSearch_loops_cells in H. unfold gridSearch_upto in H.
    rewrite firstn_all in H.
    destruct (gridCells this) as [|c0 cs] eqn:E using rev_ind.
    { by apply gridCells_nonempty in E. }
    clear IHcs. rewrite iterate_app in H.
    bind_inv H as st1 H1. cbn [iterate] in H. bind_inv H as st2 H2.
    injection H as ->.
    apply gridSearch_cell_inv in H2 as (Ha & Hb & He & out & Hout).
    simpl in He. by exists (fst c0), (snd c0), (fst st1), out. }
  destruct Hlast as (a & b & prev & out & Ha & Hb & -> & Hout).
  split; [done|]. split; [done|]. exists out. split; [|done].
  unfold calculateProteinProb. rewrite Hsearch, bind_Done.
  unfold calculateProteinProb_tail. simpl.
  apply Qneq_bool_true in Ha, Hb. rewrite Ha, Hb. cbn [assert_].
  rewrite !bind_Done, Hout, bind_Done. reflexivity.
Qed.

(** X21. With alpha set and beta not set, a search that returns leaves
    alpha as it was. *)
Theorem gridSearch_alpha_pinned_keeps_alpha (this e : ProteinProbEstimator) :
  ¬ alpha this == -1 -> beta this == -1 ->
  gridSearchAlphaBeta ext this = Done e -> alpha e = alpha this.
Proof.
  intros Ha Hb He.
  assert (Hga : grid_a this = [alpha this]).
  { unfold grid_a, gridBounds. apply Qneq_bool_true in Ha. rewrite Ha.
    assert (Hb' : Qneq_bool (beta this) (-1) = false).
    { unfold Qneq_bool. apply negb_false_iff. by apply Qeq_bool_iff. }
    rewrite Hb'. apply for_values_single. }
  assert (Hcells : gridCells this = (fun b => (alpha this, b)) <$> grid_b this).
  { unfold gridCells. rewrite Hga. cbn. rewrite app_nil_r.
    induction (grid_b this) as [|b bs IH]; [done|]. cbn. by rewrite <- IH. }
  destruct (last (gridCells this)) as [c|] eqn:El.
  - destruct (gridSearchAlphaBeta_last_cell ext this e c El He) as [-> _].
    apply last_Some in El as [cs Hcs]. rewrite Hcells in Hcs.
    assert (Hin : c ∈ (fun b => (alpha this, b)) <$> grid_b this).
    { rewrite Hcs. apply elem_of_app. right. by left. }
    apply list_elem_of_fmap in Hin as (b & -> & _). done.
  - apply last_None in El. by apply gridCells_nonempty in El.
Qed.

End GridExtras.

(** X14. [initialize] stores the scores, keeps alpha, beta and gamma, and
    asks for a grid search exactly when alpha or beta is -1; when it does,
    [calculateProteinProb] without grid search aborts on an assertion. *)
Theorem initialize_schedules (ext : Collaborators) (fullset : Scores)
    (e : ProteinProbEstimator) :
  let '(scheduleGridSearch, e') := initialize fullset e in
  alpha e' = alpha e ∧ beta e' = beta e ∧ gamma e' = gamma e ∧
  peptideScores e' = Some fullset ∧
  (scheduleGridSearch = true ↔ alpha e == -1 ∨ beta e == -1) ∧
  (scheduleGridSearch = true ->
   calculateProteinProb ext false e' = Abort AssertionFailed).
Proof.
  unfold initialize. simpl.
  split; [done|]. split; [done|]. split; [done|]. split; [done|].
  assert (Hiff : Qeq_bool (alpha e) (-1) || Qeq_bool (beta e) (-1) = true
                 ↔ alpha e == -1 ∨ beta e == -1).
  { rewrite orb_true_iff, !Qeq_bool_iff. done. }
  split; [exact Hiff|].
  intros H. unfold calculateProteinProb. rewrite bind_Done.
  apply calculateProteinProb_tail_unset. simpl. by apply Hiff.
Qed.

Lemma calculateProteinProb_unset_witness :
  calculateProteinProb (stub bowl) false (session 0.1 (-1)) = Abort AssertionFailed.
Proof. apply calculateProteinProb_unset. right. reflexivity. Defined.

Lemma initialize_schedules_witness :
  fst (initialize target_and_decoy (new_ProteinProbEstimator 0.1 (-1))) = true ∧
  calculateProteinProb (stub bowl) false
    (snd (initialize target_and_decoy (new_ProteinProbEstimator 0.1 (-1))))
  = Abort AssertionFailed.
Proof.
  pose proof (initialize_schedules (stub bowl) target_and_decoy
                (new_ProteinProbEstimator 0.1 (-1))) as H.
  destruct (initialize target_and_decoy (new_ProteinProbEstimator 0.1 (-1)))
    as [b e'] eqn:E.
  destruct H as (_ & _ & _ & _ & Hiff & Habort). simpl.
  assert (Hb : b = true) by (apply Hiff; right; reflexivity).
  split; [exact Hb|]. by apply Habort.
Defined.

Lemma gridSearchAlphaBeta_frame_witness :
  ∃ e : ProteinProbEstimator,
    gridSearchAlphaBeta (stub bowl) (session (-1) (-1)) = Done e ∧
    proteinsToPeptides e = proteinsToPeptides (session (-1) (-1)).
Proof.
  assert (HE : ∃ e, gridSearchAlphaBeta (stub bowl) (session (-1) (-1)) = Done e).
  { vm_compute. eexists. reflexivity. }
  destruct HE as [e E]. exists e. split; [exact E|].
  destruct (gridSearchAlphaBeta_frame (stub bowl) _ e E) as (_ & _ & H).
  exact H.
Defined.

Lemma gridSearch_cell_empty_result_witness :
  ∃ why : abort,
    iterate (fun c => gridSearch_cell stub_empty 0.15 (fst c) (snd c))
            [(0.01, 0.0); (0.01, 0.0 + 0.05)]
            (session (-1) (-1), bestSoFar_seed) = Abort why.
Proof.
  apply (gridSearch_cell_empty_result stub_empty (session (-1) (-1))
           bestSoFar_seed [(0.01, 0.0); (0.01, 0.0 + 0.05)] 0.01 (0.0 + 0.05)).
  - apply elem_of_cons. right. apply elem_of_cons. left. reflexivity.
  - reflexivity.
Defined.

Lemma gridSearch_cell_sentinel_witness :
  gridSearch_cell (stub (constant (-20 # 17))) 0.15 0.01 0.0
    (session (-1) (-1), bestSoFar_seed) = Abort AssertionFailed.
Proof.
  eapply gridSearch_cell_sentinel.
  - vm_compute. reflexivity.
  - vm_compute. reflexivity.
Defined.

Lemma objective_at_input_only_witness :
  objective_at (stub bowl) (session (-1) (-1)) 0.26 0.5
  = objective_at (stub bowl) (session 0.3 0.4) 0.26 0.5.
Proof. apply objective_at_input_only. by repeat split. Defined.

Lemma calculateProteinProb_after_search_witness :
  ∃ (e : ProteinProbEstimator) (out : fidoOutput),
    gridSearchAlphaBeta (stub bowl) (session (-1) (-1)) = Done e ∧
    calculateProteinProb (stub bowl) true (session (-1) (-1)) = Done (out, e).
Proof.
  assert (HE : ∃ e, gridSearchAlphaBeta (stub bowl) (session (-1) (-1)) = Done e).
  { vm_compute. eexists. reflexivity. }
  destruct HE as [e E].
  destruct (calculateProteinProb_after_search (stub bowl) _ e E)
    as (_ & _ & out & Hrun & _).
  exists e, out. split; [exact E|exact Hrun].
Defined.

Lemma gridSearch_alpha_pinned_keeps_alpha_witness :
  ∃ e : ProteinProbEstimator,
    gridSearchAlphaBeta (stub bowl) (session 0.1 (-1)) = Done e ∧ alpha e = 0.1.
Proof.
  assert (HE : ∃ e, gridSearchAlphaBeta (stub bowl) (session 0.1 (-1)) = Done e).
  { vm_compute. eexists. reflexivity. }
  destruct HE as [e E]. exists e. split; [exact E|].
  apply (gridSearch_alpha_pinned_keeps_alpha (stub bowl) (session 0.1 (-1)) e);
    [vm_compute; discriminate|reflexivity|exact E].
Defined.

(** ** The two loops of the grid search in binary64 *)

Section Binary64Loops.
Import PrimFloat.
Local Set Warnings "-inexact-float".

Lemma binary64_for_values_more_fuel (step upper : float) (n : nat) :
  ∀ (x : float) (vs : list float),
    Binary64.for_values n step x upper = Some vs ->
    ∀ m : nat, (n <= m)%nat -> Binary64.for_values m step x upper = Some vs.
Proof.
  induction n as [|n IH]; intros x vs H m Hm; [done|].
  destruct m as [|m]; [lia|]. simpl in *.
  destruct (PrimFloat.leb x upper); [|done].
  destruct (Binary64.for_values n step (x + step) upper) as [vs'|] eqn:E;
    [|done].
  by rewrite (IH _ vs' E m) by lia.
Qed.

(** X22. Over doubles, the loop [for (a = 0.01; a <= 0.76; a += 0.05)] of
    the grid search ends, and gives its variable 15 values, the last of
    them 0.7100000000000002; the loop [for (b = 0.0; b <= 0.80; b += 0.05)]
    ends, and gives its variable 16 values, the last of them
    0.7500000000000001. Neither loop reaches its upper bound: the sums
    that follow are above 0.76 and above 0.80. *)
Theorem for_values_binary64 (fuel : nat) :
  (17 <= fuel)%nat ->
  Binary64.for_values fuel 0.05 0.01 0.76
    = Some [0.01; 0.060000000000000005; 0.11000000000000001;
            0.16000000000000003; 0.21000000000000002; 0.26; 0.31; 0.36;
            0.41; 0.45999999999999996; 0.51; 0.56; 0.6100000000000001;
            0.6600000000000001; 0.7100000000000002]%float ∧
  Binary64.for_values fuel 0.05 0.0 0.80
    = Some [0; 0.05; 0.1; 0.15000000000000002; 0.2; 0.25; 0.3; 0.35;
            0.39999999999999997; 0.44999999999999996; 0.49999999999999994;
            0.5499999999999999; 0.6; 0.65; 0.7000000000000001;
            0.7500000000000001]%float ∧
  PrimFloat.ltb 0.76 (0.7100000000000002 + 0.05) = true ∧
  PrimFloat.ltb 0.80 (0.7500000000000001 + 0.05) = true.
Proof.
  intros Hfuel. split; [|split].
  - apply (binary64_for_values_more_fuel _ _ 17); [|done].
    vm_compute. reflexivity.
  - apply (binary64_for_values_more_fuel _ _ 17); [|done].
    vm_compute. reflexivity.
  - split; vm_compute; reflexivity.
Qed.

Lemma for_values_binary64_witness :
  ∃ alphas betas : list float,
    Binary64.for_values 17 0.05 0.01 0.76 = Some alphas ∧
    Binary64.for_values 17 0.05 0.0 0.80 = Some betas ∧
    length alphas = 15%nat ∧ length betas = 16%nat.
Proof.
  destruct (for_values_binary64 17) as (Ha & Hb & _); [lia|].
  eexists _, _. split; [exact Ha|]. split; [exact Hb|]. split; reflexivity.
Defined.

End Binary64Loops.
